(** * golang-scrud: a generic CRUD layer over one SQL table

    Shallow embedding of [main.go]: the record writer ([Create], [Update],
    [Delete], and the [UserCRUD] override), the filter compiler
    ([PrepareWhere], [PrepareWhereWithRootLogic]) and the schema synchronizer
    ([Synchronize]), followed by the properties of the specification that
    they decide.

    Conventions.
    - A Go [string] is a byte sequence: [String.string].
    - A Go [map] that is only indexed is a [gmap].  A [for ... range] loop
      over a map visits every entry once, in an order the runtime chooses
      afresh for every loop; such a loop takes the visiting order as an
      explicit list, and [range_order] says that the list is one of the
      orders the runtime may choose.
    - The [*sql.DB] handle is an abstract [Driver] threaded through a state
      monad that also records every call made on the handle.  *)

From Stdlib Require Import ZArith List Permutation Lia.
From stdpp Require Import base strings gmap fin_maps pretty.

Set Default Proof Using "Type".
Set Warnings "-register-all".

(* ===================================================================== *)
(** * Go strings: the functions of package [strings] that the code uses  *)
(* ===================================================================== *)

Module strings.

(** [strings.HasPrefix s prefix]. *)
Definition HasPrefix (s prefix : string) : bool := String.prefix prefix s.

(** [strings.HasSuffix s suffix]. *)
Definition HasSuffix (s suffix : string) : bool :=
  let n := String.length s in
  let k := String.length suffix in
  if decide (k ≤ n) then String.eqb (String.substring (n - k) k s) suffix
  else false.

(** [strings.TrimSuffix s suffix]: [s] without the trailing [suffix], or
    [s] itself when it does not end in [suffix]. *)
Definition TrimSuffix (s suffix : string) : string :=
  if HasSuffix s suffix
  then String.substring 0 (String.length s - String.length suffix) s
  else s.

(** [strings.Join elems sep]. *)
Definition Join (elems : list string) (sep : string) : string :=
  String.concat sep elems.

End strings.

(* ===================================================================== *)
(** * Values of type [any]                                               *)
(* ===================================================================== *)

(** The dynamic types that reach this program through [map[string]any]:
    the nil interface, booleans, integers, strings and nested
    [map[string]any].  A nested map is only ever ranged over (by the filter
    compiler) or printed, so it is kept as the list of its entries in the
    order its [range] loop visits them; [wf_any] says the keys are
    distinct, as in every Go map.  Floating-point values are left out. *)
Inductive any : Type :=
| ANil
| ABool (b : bool)
| AInt (n : Z)
| AString (s : string)
| AMap (entries : list (string * any)).

Fixpoint wf_any (v : any) : Prop :=
  match v with
  | AMap entries =>
      NoDup (map fst entries) ∧
      (fix all (es : list (string * any)) : Prop :=
         match es with
         | [] => True
         | e :: es => wf_any (snd e) ∧ all es
         end) entries
  | _ => True
  end.

(** A filter is a [map[string]any]; the list is the order in which the
    [range] loop of the compiler visits the entries. *)
Definition wf_filter (filter : list (string * any)) : Prop := wf_any (AMap filter).

(** The double-quote byte, and a string between two of them. *)
Definition dquote : string := String (Ascii.ascii_of_nat 34) EmptyString.
Definition quoted (s : string) : string := dquote +:+ s +:+ dquote.

(** ** Package [fmt]: the verb [%v] *)

Module fmt.

(** Insertion of a map entry into a list kept sorted by key: [fmt] prints
    the entries of a map in increasing key order, whatever the order of
    iteration. *)
Fixpoint insert_sorted {A} (e : string * A) (l : list (string * A)) : list (string * A) :=
  match l with
  | [] => [e]
  | e' :: l' =>
      if String.leb (fst e) (fst e') then e :: l else e' :: insert_sorted e l'
  end.

Definition sort_keys {A} (l : list (string * A)) : list (string * A) :=
  fold_right insert_sorted [] l.

(** [fmt.Sprintf("%v", v)]. *)
Fixpoint Sprint_v (v : any) : string :=
  match v with
  | ANil => "<nil>"
  | ABool true => "true"
  | ABool false => "false"
  | AInt n => pretty n
  | AString s => s
  | AMap entries =>
      "map[" +:+
      strings.Join
        (map (λ e : string * string, fst e +:+ ":" +:+ snd e)
           (sort_keys (map (λ e : string * any, (fst e, Sprint_v (snd e))) entries)))
        " "
      +:+ "]"
  end.

End fmt.

(* ===================================================================== *)
(** * Errors and panics                                                  *)
(* ===================================================================== *)

(** An [error] is either built by the program with [fmt.Errorf] (kept as its
    message) or handed back by the SQL driver. *)
Inductive error : Type :=
| Errorf (msg : string)
| DriverError (msg : string).

(** The message of an error, as [%s] prints it. *)
Definition Error (e : error) : string :=
  match e with Errorf msg | DriverError msg => msg end.

(** The messages the program builds. *)
Definition ValidationError (col : string) : error :=
  Errorf ("field '" +:+ col +:+ "' cannot be null").

Definition UnknownColumnError (column : string) : error :=
  Errorf ("field '" +:+ column +:+ "' does not exist in the structure").

Definition PermissionError : error :=
  Errorf "deletion forbidden for user with ID = 1".

(** A call either returns or panics (a failed type assertion [v.(T)]). *)
Inductive outcome (A : Type) : Type :=
| Returns (a : A)
| Panics.
Arguments Returns {A} a.
Arguments Panics {A}.

Definition obind {A B} (m : outcome A) (f : A → outcome B) : outcome B :=
  match m with
  | Returns a => f a
  | Panics => Panics
  end.

(** A [range] loop whose body may panic: the body is run on each entry in
    turn, threading the loop's variables [st]. *)
Fixpoint range_loop {E St} (body : St → E → outcome St) (entries : list E) (st : St)
  : outcome St :=
  match entries with
  | [] => Returns st
  | e :: rest => obind (body st e) (range_loop body rest)
  end.

(* ===================================================================== *)
(** * The CRUD structure                                                 *)
(* ===================================================================== *)

(** The property bag of one column, [map[string]string]: a missing key
    reads as the empty string. *)
Definition prop (properties : gmap string string) (key : string) : string :=
  default "" (properties !! key).

(** [type CRUD struct]; the [DB] field is the state of the monad below. *)
Record CRUD : Type := NewCRUD {
  Table : string;
  Structure : gmap string (gmap string string);
}.

(** The orders in which a [range] loop over the map [m] may visit it. *)
Definition range_order {V} (m : gmap string V) (order : list (string * V)) : Prop :=
  order ≡ₚ map_to_list m.

(* ===================================================================== *)
(** * The filter compiler                                                *)
(* ===================================================================== *)

(** The tests of lines 106 and 115 on a key. *)
Definition is_or_group (key : string) : bool :=
  bool_decide (key = "[OR]") || strings.HasPrefix key "[OR]".

Definition is_and_group (key : string) : bool :=
  bool_decide (key = "[AND]") || strings.HasPrefix key "[AND]".

(** Lines 127-147: the column, the comparison and the value of a leaf
    entry.  The assertion [value.(string)] of line 143 panics on a value
    that is not a string. *)
Definition leaf_parts (key : string) (value : any) : outcome (string * string * any) :=
  if strings.HasSuffix key ">" then
    Returns (strings.TrimSuffix key ">", ">", value)
  else if strings.HasSuffix key "<" then
    Returns (strings.TrimSuffix key "<", "<", value)
  else if strings.HasSuffix key "=" then
    Returns (strings.TrimSuffix key "=", "=", value)
  else if strings.HasSuffix key "%" then
    match value with
    | AString s => Returns (strings.TrimSuffix key "%", "LIKE", AString ("%" +:+ s +:+ "%"))
    | _ => Panics
    end
  else Returns (key, "=", value).

(** The column alone: the key without its operator suffix. *)
Definition leaf_column (key : string) : string :=
  if strings.HasSuffix key ">" then strings.TrimSuffix key ">"
  else if strings.HasSuffix key "<" then strings.TrimSuffix key "<"
  else if strings.HasSuffix key "=" then strings.TrimSuffix key "="
  else if strings.HasSuffix key "%" then strings.TrimSuffix key "%"
  else key.

(** The dynamic type tests behind [value.(string)] and
    [value.(map[string]any)]. *)
Definition is_string (value : any) : bool :=
  match value with AString _ => true | _ => false end.

Definition is_map (value : any) : bool :=
  match value with AMap _ => true | _ => false end.

(** Line 156: one condition. *)
Definition condition (column comparison : string) (value : any) : string :=
  column +:+ " " +:+ comparison +:+ " " +:+ quoted (fmt.Sprint_v value).

Section FilterCompiler.

Variable c : CRUD.

(** The loop variables of [PrepareWhereWithRootLogic]. *)
Definition where_state : Type := list string * list error.

(** The [else] branch of the loop body (lines 126-156): a leaf entry. *)
Definition where_leaf (st : where_state) (key : string) (value : any)
  : outcome where_state :=
  let '(conditions, errors) := st in
  obind (leaf_parts key value)
    (λ '(column, comparison, value),
      match Structure c !! column with
      | None => Returns (conditions, errors ++ [UnknownColumnError column])
      | Some _ => Returns (conditions ++ [condition column comparison value], errors)
      end).

(** A group entry (lines 107-114 and 117-124): the recursive call's
    errors are appended, its clause is parenthesised when non-empty. *)
Definition where_group (st : where_state) (sub : outcome (string * list error))
  : outcome where_state :=
  let '(conditions, errors) := st in
  obind sub (λ '(clause, subErrors),
    let errors := if decide (0 < length subErrors) then errors ++ subErrors else errors in
    let conditions :=
      if decide (clause ≠ "") then conditions ++ ["(" +:+ clause +:+ ")"] else conditions in
    Returns (conditions, errors)).

(** The loop body, with the recursive call abstracted as [rec value logic]
    (the type assertion [value.(map[string]any)] followed by the call). *)
Definition where_entry (rec : any → string → outcome (string * list error))
    (st : where_state) (entry : string * any) : outcome where_state :=
  let '(key, value) := entry in
  if is_or_group key then
    where_group st (rec value "OR")
  else if is_and_group key then
    where_group st (rec value "AND")
  else where_leaf st key value.

(** Lines 160-164: the conditions joined by the logic, with [nil] for the
    errors, when there is a condition; otherwise the empty string and the
    gathered errors. *)
Definition where_return (logic : string) (st : where_state) : string * list error :=
  let '(conditions, errors) := st in
  if decide (0 < length conditions)
  then (strings.Join conditions (" " +:+ logic +:+ " "), [])
  else ("", errors).

(** [value.(map[string]any)] followed by the recursive call on it. *)
Fixpoint where_assert_map (value : any) (logic : string) {struct value}
  : outcome (string * list error) :=
  match value with
  | AMap filter =>
      obind (range_loop (where_entry where_assert_map) filter ([], []))
            (λ st, Returns (where_return logic st))
  | _ => Panics
  end.

(** [func (c *CRUD) PrepareWhereWithRootLogic(filter, logic)]. *)
Definition PrepareWhereWithRootLogic (filter : list (string * any)) (logic : string)
  : outcome (string * list error) :=
  obind (range_loop (where_entry where_assert_map) filter ([], []))
        (λ st, Returns (where_return logic st)).

(** [func (c *CRUD) PrepareWhere(filter)]. *)
Definition PrepareWhere (filter : list (string * any)) : outcome (string * list error) :=
  PrepareWhereWithRootLogic filter "AND".

End FilterCompiler.

(** The structure of [NewUserCRUD]. *)
Definition idProperties : gmap string string :=
  {[ "TYPE" := "int"; "NAME" := "ID"; "NOT_NULL" := "true"; "DEFAULT" := "";
     "INDEX" := "yes"; "UNIQUE" := "yes"; "AUTO_INCREMENT" := "true" ]}.

Definition nameProperties : gmap string string :=
  {[ "TYPE" := "varchar(255)"; "NAME" := "Name"; "NOT_NULL" := "true"; "DEFAULT" := "";
     "INDEX" := "yes"; "UNIQUE" := "no"; "AUTO_INCREMENT" := "false" ]}.

Definition emailProperties : gmap string string :=
  {[ "TYPE" := "varchar(255)"; "NAME" := "Email"; "NOT_NULL" := "true"; "DEFAULT" := "";
     "INDEX" := "no"; "UNIQUE" := "yes"; "AUTO_INCREMENT" := "false" ]}.

Definition userStructure : gmap string (gmap string string) :=
  {[ "id" := idProperties; "name" := nameProperties; "email" := emailProperties ]}.

(** The visit of [userStructure] in the order of the source text. *)
Definition userOrder : list (string * gmap string string) :=
  [("id", idProperties); ("name", nameProperties); ("email", emailProperties)].

Definition userCRUD : CRUD := NewCRUD "users" userStructure.


(* ===================================================================== *)
(** * The store handle                                                   *)
(* ===================================================================== *)

(** One row of [SHOW COLUMNS] after [rows.Scan]: the first five columns are
    scanned into [sql.NullString] ([None] is SQL [NULL]), the sixth into a
    [string]. *)
Record column_row : Type := {
  field : option string;
  colType : option string;
  isNull : option string;
  key : option string;
  defaultValue : option string;
  extra : string;
}.

(** The field [String] of a [sql.NullString]. *)
Definition NullString_String (v : option string) : string := default "" v.

(** The calls the program makes on the handle and on the rows it returns,
    as recorded in the log. *)
Inductive call : Type :=
| CExec (query : string) (args : list any)
| CQueryRow (query : string)
| CQuery (query : string)
| CRowsClose.

(** What a store answers: [Exec] fails or not; [QueryRow(q).Scan(&n)] gives
    an integer or fails; [Query] fails or gives rows, each of which scans
    into a [column_row] or fails to scan.  A failure is the message of the
    driver's error. *)
Record Driver (S : Type) : Type := {
  drv_Exec : string → list any → S → option string * S;
  drv_QueryRow : string → S → (string + Z) * S;
  drv_Query : string → S → (string + list (string + column_row)) * S;
}.
Arguments drv_Exec {S} _ _ _ _.
Arguments drv_QueryRow {S} _ _ _.
Arguments drv_Query {S} _ _ _.

(** The state of a run is the store and the log of calls so far; [DB S] is
    the state monad over it. *)
Definition DB (S A : Type) : Type := S * list call → A * (S * list call).

Global Instance DB_ret {S} : MRet (DB S) := λ A a st, (a, st).
Global Instance DB_bind {S} : MBind (DB S) :=
  λ A B f m st, let '(a, st') := m st in f a st'.

Section DB.

Context {S : Type} (driver : Driver S).

Definition Exec (query : string) (args : list any) : DB S (option error) :=
  λ '(s, log),
    let '(r, s') := drv_Exec driver query args s in
    (DriverError <$> r, (s', log ++ [CExec query args])).

Definition QueryRow (query : string) : DB S (error + Z) :=
  λ '(s, log),
    let '(r, s') := drv_QueryRow driver query s in
    (sum_map DriverError id r, (s', log ++ [CQueryRow query])).

Definition Query (query : string) : DB S (error + list (error + column_row)) :=
  λ '(s, log),
    let '(r, s') := drv_Query driver query s in
    (sum_map DriverError (map (sum_map DriverError id)) r,
     (s', log ++ [CQuery query])).

Definition RowsClose : DB S unit :=
  λ '(s, log), (tt, (s, log ++ [CRowsClose])).

End DB.

(** The statements [Exec] was called with, in order. *)
Definition executed (log : list call) : list string :=
  omap (λ e, match e with CExec query _ => Some query | _ => None end) log.

(* ===================================================================== *)
(** * The record writer                                                  *)
(* ===================================================================== *)

(** The test of lines 32 and 62: a column that must be supplied. *)
Definition required (properties : gmap string string) : bool :=
  bool_decide (prop properties "NOT_NULL" = "true")
  && bool_decide (prop properties "DEFAULT" = "")
  && bool_decide (prop properties "AUTO_INCREMENT" ≠ "true").

(** The loop of lines 31-37, repeated at lines 61-67: the first required
    column, in the order of the visit, that [data] has no entry for. *)
Fixpoint check_required (order : list (string * gmap string string))
    (data : gmap string any) : option error :=
  match order with
  | [] => None
  | (col, properties) :: rest =>
      if required properties then
        match data !! col with
        | None => Some (ValidationError col)
        | Some _ => check_required rest data
        end
      else check_required rest data
  end.

Section RecordWriter.

Context {S : Type} (driver : Driver S).
Variable c : CRUD.

(** [func (c *CRUD) Create(data)]; [order1] and [order2] are the visiting
    orders of its two loops over [c.Structure]. *)
Definition Create (data : gmap string any)
    (order1 order2 : list (string * gmap string string)) : DB S (option error) :=
  match check_required order1 data with
  | Some err => mret (Some err)
  | None =>
      let columns := map fst order2 in
      let values := map (λ e, default ANil (data !! fst e)) order2 in
      let placeholders := map (λ _, "?") order2 in
      let query :=
        "INSERT INTO " +:+ Table c +:+ " (" +:+ strings.Join columns ", "
        +:+ ") VALUES (" +:+ strings.Join placeholders ", " +:+ ")" in
      Exec driver query values
  end.

(** The loop of lines 73-78 over the keys of [data]. *)
Definition set_clauses (data : gmap string any) (dataOrder : list (string * any))
  : list string * list any :=
  fold_left
    (λ '(setClauses, values) e,
      let col := fst e in
      match data !! col with
      | Some value => (setClauses ++ [col +:+ " = ?"], values ++ [value])
      | None => (setClauses, values)
      end)
    dataOrder ([], []).

(** [func (c *CRUD) Update(id, data)]; [order1] is the visiting order of
    the loop over [c.Structure], [dataOrder] that of the loop over
    [data]. *)
Definition Update (id : string) (data : gmap string any)
    (order1 : list (string * gmap string string)) (dataOrder : list (string * any))
  : DB S (option error) :=
  match check_required order1 data with
  | Some err => mret (Some err)
  | None =>
      let '(setClauses, values) := set_clauses data dataOrder in
      let query :=
        "UPDATE " +:+ Table c +:+ " SET " +:+ strings.Join setClauses ", "
        +:+ " WHERE id = ?" in
      Exec driver query (values ++ [AString id])
  end.

(** [func (c *CRUD) Delete(id)]. *)
Definition Delete (id : string) : DB S (option error) :=
  Exec driver ("DELETE FROM " +:+ Table c +:+ " WHERE id = ?") [AString id].

End RecordWriter.

(** [type UserCRUD struct { *CRUD }]. *)
Record UserCRUD : Type := { UserCRUD_CRUD : CRUD }.

(** [func NewUserCRUD(db)]. *)
Definition NewUserCRUD : UserCRUD := {| UserCRUD_CRUD := NewCRUD "users" userStructure |}.

(** [func (u *UserCRUD) Delete(id)]. *)
Definition UserCRUD_Delete {S} (driver : Driver S) (u : UserCRUD) (id : string)
  : DB S (option error) :=
  if decide (id = "1") then mret (Some PermissionError)
  else Delete driver (UserCRUD_CRUD u) id.

(* ===================================================================== *)
(** * The schema synchronizer                                            *)
(* ===================================================================== *)

(** The three [if] statements that extend a column definition (lines
    190-199, again at 244-252 and at 261-269). *)
Definition with_options (def : string) (properties : gmap string string) : string :=
  let def := if decide (prop properties "NOT_NULL" = "true")
             then def +:+ " NOT NULL" else def in
  let def := if decide (prop properties "DEFAULT" ≠ "")
             then def +:+ " DEFAULT " +:+ prop properties "DEFAULT" else def in
  if decide (prop properties "AUTO_INCREMENT" = "true")
  then def +:+ " AUTO_INCREMENT" else def.

(** The loop of lines 188-201: the field definitions, and the last column
    visited that has [AUTO_INCREMENT] (the empty string when there is none). *)
Definition create_fields (order : list (string * gmap string string))
  : list string * string :=
  fold_left
    (λ '(fieldDefinitions, primaryKeyColumn) '(col, properties),
      let fieldDef := with_options (col +:+ " " +:+ prop properties "TYPE") properties in
      let primaryKeyColumn :=
        if decide (prop properties "AUTO_INCREMENT" = "true") then col
        else primaryKeyColumn in
      (fieldDefinitions ++ [fieldDef], primaryKeyColumn))
    order ([], "").

Definition createTableQuery (c : CRUD) (order : list (string * gmap string string))
  : string :=
  let '(fieldDefinitions, primaryKeyColumn) := create_fields order in
  "CREATE TABLE " +:+ Table c +:+ " (" +:+ strings.Join fieldDefinitions ", "
  +:+ ", PRIMARY KEY (" +:+ primaryKeyColumn +:+ "))".

(** Lines 227-233: what is kept of one row. *)
Definition column_info (r : column_row) : gmap string string :=
  {[ "COL_TYPE" := NullString_String (colType r);
     "NULL" := NullString_String (isNull r);
     "KEY" := NullString_String (key r);
     "DEFAULT" := NullString_String (defaultValue r);
     "EXTRA" := extra r ]}.

(** The loop of lines 219-234: the live columns by name, or the first scan
    error. *)
Fixpoint scan_rows (c : CRUD) (rows : list (error + column_row))
    (currentColumns : gmap string (gmap string string))
  : error + gmap string (gmap string string) :=
  match rows with
  | [] => inr currentColumns
  | inl err :: _ =>
      inl (Errorf ("failed to scan column: " +:+ Error err
                   +:+ "; query: SHOW COLUMNS FROM " +:+ Table c))
  | inr r :: rest =>
      scan_rows c rest (<[ NullString_String (field r) := column_info r ]> currentColumns)
  end.

(** The condition of lines 240-242: the live column differs. *)
Definition differs (currentColInfo properties : gmap string string) : bool :=
  bool_decide (prop currentColInfo "COL_TYPE" ≠ prop properties "TYPE")
  || (bool_decide (prop properties "NOT_NULL" = "true")
      && bool_decide (prop currentColInfo "NULL" = "YES"))
  || (bool_decide (prop properties "DEFAULT" ≠ "")
      && bool_decide (prop currentColInfo "DEFAULT" ≠ prop properties "DEFAULT")).

Section Synchronizer.

Context {S : Type} (driver : Driver S).
Variable c : CRUD.

(** [Exec] of a data-definition statement; a failure is wrapped with
    the statement. *)
Definition exec_ddl (what : string) (query : string) : DB S (option error) :=
  err ← Exec driver query [];
  match err with
  | Some err =>
      mret (Some (Errorf (what +:+ ": " +:+ Error err +:+ "; query: " +:+ query)))
  | None => mret None
  end.

(** The body of the loop of lines 237-275 for one descriptor column. *)
Definition alter_column (currentColumns : gmap string (gmap string string))
    (entry : string * gmap string string) : DB S (option error) :=
  let '(col, properties) := entry in
  match currentColumns !! col with
  | Some currentColInfo =>
      if differs currentColInfo properties then
        exec_ddl "failed to alter table structure"
          (with_options
             ("ALTER TABLE " +:+ Table c +:+ " MODIFY " +:+ col +:+ " "
              +:+ prop properties "TYPE") properties)
      else mret None
  | None =>
      exec_ddl "failed to add new column"
        (with_options
           ("ALTER TABLE " +:+ Table c +:+ " ADD COLUMN " +:+ col +:+ " "
            +:+ prop properties "TYPE") properties)
  end.

(** A loop that returns from the function at the first error. *)
Fixpoint for_each {E} (body : E → DB S (option error)) (l : list E)
  : DB S (option error) :=
  match l with
  | [] => mret None
  | e :: rest =>
      err ← body e;
      match err with
      | Some err => mret (Some err)
      | None => for_each body rest
      end
  end.

(** The loop of lines 278-290: it stops ([break]) at the first column
    visited that has [AUTO_INCREMENT]. *)
Fixpoint ensure_primary_key (currentColumns : gmap string (gmap string string))
    (order : list (string * gmap string string)) : DB S (option error) :=
  match order with
  | [] => mret None
  | (col, properties) :: rest =>
      if decide (prop properties "AUTO_INCREMENT" = "true") then
        match currentColumns !! col with
        | Some currentColInfo =>
            if decide (prop currentColInfo "KEY" ≠ "PRI") then
              exec_ddl "failed to set primary key"
                ("ALTER TABLE " +:+ Table c +:+ " ADD PRIMARY KEY (" +:+ col +:+ ")")
            else mret None
        | None => mret None
        end
      else ensure_primary_key currentColumns rest
  end.

Definition tableExistsQuery : string :=
  "SELECT COUNT(*) FROM information_schema.tables WHERE table_schema = DATABASE() AND table_name = '"
  +:+ Table c +:+ "'".

Definition showColumnsQuery : string := "SHOW COLUMNS FROM " +:+ Table c.

(** [func (c *CRUD) Synchronize()].  [createOrder], [alterOrder] and
    [keyOrder] are the visiting orders of the loops over [c.Structure]
    at lines 188, 237 and 278. *)
Definition Synchronize (createOrder alterOrder keyOrder : list (string * gmap string string))
  : DB S (option error) :=
  r ← QueryRow driver tableExistsQuery;
  match r with
  | inl err =>
      mret (Some (Errorf ("failed to check if table exists: " +:+ Error err
                          +:+ "; query: " +:+ tableExistsQuery)))
  | inr exists_ =>
      if decide (exists_ = 0%Z) then
        exec_ddl "failed to create table" (createTableQuery c createOrder)
      else
        rows ← Query driver showColumnsQuery;
        match rows with
        | inl err =>
            mret (Some (Errorf ("failed to show columns: " +:+ Error err
                                +:+ "; query: SHOW COLUMNS FROM " +:+ Table c)))
        | inr rows =>
            (* [defer rows.Close()] runs when the function returns *)
            result ←
              match scan_rows c rows ∅ with
              | inl err => mret (Some err)
              | inr currentColumns =>
                  err ← for_each (alter_column currentColumns) alterOrder;
                  match err with
                  | Some err => mret (Some err)
                  | None => ensure_primary_key currentColumns keyOrder
                  end
              end;
            _ ← RowsClose;
            mret result
        end
  end.

End Synchronizer.

(* ===================================================================== *)
(** * A store and rows for the examples                                  *)
(* ===================================================================== *)

(** The state is the rows [SHOW COLUMNS] answers with, or [None] while the
    table does not exist; every statement succeeds and changes nothing. *)
Definition example_store : Driver (option (list column_row)) := {|
  drv_Exec := λ _ _ s, (None, s);
  drv_QueryRow := λ _ (s : option (list column_row)),
    (inr (match s with Some _ => 1%Z | None => 0%Z end), s);
  drv_Query := λ _ (s : option (list column_row)),
    (inr (map inr (default [] s)), s);
|}.

(** The rows of a [users] table as [userStructure] declares it. *)
Definition users_rows : list column_row := [
  {| field := Some "id"; colType := Some "int"; isNull := Some "NO";
     key := Some "PRI"; defaultValue := None; extra := "auto_increment" |};
  {| field := Some "name"; colType := Some "varchar(255)"; isNull := Some "NO";
     key := Some ""; defaultValue := None; extra := "" |};
  {| field := Some "email"; colType := Some "varchar(255)"; isNull := Some "NO";
     key := Some ""; defaultValue := None; extra := "" |} ].

(* ===================================================================== *)
(** * Statements of the specification                                    *)
(* ===================================================================== *)

(** A column the input must supply and does not: [NOT_NULL] is ["true"],
    [DEFAULT] is empty, [AUTO_INCREMENT] is not ["true"], and [data] has no
    entry for it. *)
Definition missing_required (c : CRUD) (data : gmap string any) (col : string) : Prop :=
  ∃ properties,
    Structure c !! col = Some properties
    ∧ prop properties "NOT_NULL" = "true"
    ∧ prop properties "DEFAULT" = ""
    ∧ prop properties "AUTO_INCREMENT" ≠ "true"
    ∧ data !! col = None.

(** The live columns, as the store reports them, agree with the
    descriptor: every column of the descriptor is there with the declared
    type, does not allow [NULL] when declared [NOT_NULL], has the declared
    default when one is declared, and is the primary key when declared
    [AUTO_INCREMENT].  This is the schema a store holds after it has
    created the table from the descriptor. *)
Definition live_matches (structure currentColumns : gmap string (gmap string string)) : Prop :=
  ∀ col properties, structure !! col = Some properties →
    ∃ currentColInfo,
      currentColumns !! col = Some currentColInfo
      ∧ prop currentColInfo "COL_TYPE" = prop properties "TYPE"
      ∧ (prop properties "NOT_NULL" = "true" → prop currentColInfo "NULL" ≠ "YES")
      ∧ (prop properties "DEFAULT" ≠ "" →
         prop currentColInfo "DEFAULT" = prop properties "DEFAULT")
      ∧ (prop properties "AUTO_INCREMENT" = "true" → prop currentColInfo "KEY" = "PRI").

(** The row a store reports for a column it keeps as the [CREATE TABLE]
    statement declared it; [primaryKeyColumn] is the column of the
    statement's [PRIMARY KEY] clause. *)
Definition declared_row (primaryKeyColumn : string) (entry : string * gmap string string)
  : column_row :=
  let '(col, properties) := entry in
  {| field := Some col;
     colType := Some (prop properties "TYPE");
     isNull := Some (if decide (prop properties "NOT_NULL" = "true" ∨ col = primaryKeyColumn)
                     then "NO" else "YES");
     key := Some (if decide (col = primaryKeyColumn) then "PRI" else "");
     defaultValue := if decide (prop properties "DEFAULT" = "") then None
                     else Some (prop properties "DEFAULT");
     extra := if decide (prop properties "AUTO_INCREMENT" = "true")
              then "auto_increment" else "" |}.

(** The rows of the table the statement [createTableQuery c order] creates. *)
Definition declared_rows (order : list (string * gmap string string)) : list column_row :=
  map (declared_row (snd (create_fields order))) order.

(** The columns kept after scanning rows that all scan. *)
Definition scanned (rows : list column_row) (currentColumns : gmap string (gmap string string))
  : gmap string (gmap string string) :=
  fold_left (λ m r, <[ NullString_String (field r) := column_info r ]> m) rows currentColumns.

(** At most one column of the descriptor has [AUTO_INCREMENT]. *)
Definition one_auto_increment (structure : gmap string (gmap string string)) : Prop :=
  ∀ col1 col2 properties1 properties2,
    structure !! col1 = Some properties1 → structure !! col2 = Some properties2 →
    prop properties1 "AUTO_INCREMENT" = "true" →
    prop properties2 "AUTO_INCREMENT" = "true" →
    col1 = col2.

(** The entries the compiler reaches in a filter: those of the filter, and
    those it reaches in the map of a group entry. *)
Inductive reached : list (string * any) → string * any → Prop :=
| reached_here filter entry :
    entry ∈ filter → reached filter entry
| reached_group filter key group entry :
    (key, AMap group) ∈ filter →
    is_or_group key = true ∨ is_and_group key = true →
    reached group entry →
    reached filter entry.

(** The statement [Update] builds when [data] is visited in [dataOrder]. *)
Definition updateQuery (c : CRUD) (dataOrder : list (string * any)) : string :=
  "UPDATE " +:+ Table c +:+ " SET "
  +:+ strings.Join (map (λ e, fst e +:+ " = ?") dataOrder) ", "
  +:+ " WHERE id = ?".

(** One field definition of the [CREATE TABLE] statement (lines 189-199). *)
Definition fieldDef (entry : string * gmap string string) : string :=
  with_options (fst entry +:+ " " +:+ prop (snd entry) "TYPE") (snd entry).

(** The two conditions of the grouping example. *)
Definition id_gt_1 : string := "id > " +:+ quoted "1".
Definition id_lt_2 : string := "id < " +:+ quoted "2".

(** The two conditions of the literal example. *)
Definition name_eq_Bob : string := "name = " +:+ quoted "Bob".
Definition email_like : string := "email LIKE " +:+ quoted "%@example.com%".

(** A descriptor with no [AUTO_INCREMENT] column. *)
Definition notesCRUD : CRUD :=
  NewCRUD "notes" {[ "title" := {[ "TYPE" := "varchar(255)"; "NOT_NULL" := "true" ]} ]}.

(** ** Statements about the filter compiler *)

(** The type assertion made on an entry fails: a leaf with the suffix [%]
    whose value is not a string, or a group whose value is not a map. *)
Definition assertion_fails (key : string) (value : any) : Prop :=
  (is_or_group key = false ∧ is_and_group key = false
   ∧ strings.HasSuffix key "%" = true ∧ is_string value = false)
  ∨ ((is_or_group key = true ∨ is_and_group key = true) ∧ is_map value = false).

(** A leaf entry on which no assertion fails. *)
Definition plain_leaf (entry : string * any) : Prop :=
  is_or_group (fst entry) = false ∧ is_and_group (fst entry) = false
  ∧ (strings.HasSuffix (fst entry) "%" = true → is_string (snd entry) = true).

(** The condition a leaf entry compiles to, when its column is in the
    structure. *)
Definition leaf_condition (c : CRUD) (entry : string * any) : option string :=
  match leaf_parts (fst entry) (snd entry) with
  | Returns (column, comparison, value) =>
      match Structure c !! column with
      | Some _ => Some (condition column comparison value)
      | None => None
      end
  | Panics => None
  end.

(** The error a leaf entry gives, when its column is not in the structure. *)
Definition leaf_error (c : CRUD) (entry : string * any) : option error :=
  match leaf_parts (fst entry) (snd entry) with
  | Returns (column, _, _) =>
      match Structure c !! column with
      | Some _ => None
      | None => Some (UnknownColumnError column)
      end
  | Panics => None
  end.

(** What the compiler returns for given conditions and errors. *)
Definition compiled (logic : string) (conditions : list string) (errors : list error)
  : string * list error :=
  match conditions with
  | [] => ("", errors)
  | _ :: _ => (strings.Join conditions (" " +:+ logic +:+ " "), [])
  end.

(** ** Statements about the record writer and the synchronizer *)

(** A descriptor in which no column has to be supplied: the key is
    generated, one column allows [NULL], one has a default. *)
Definition logsOrder : list (string * gmap string string) :=
  [("id", {[ "TYPE" := "int"; "NOT_NULL" := "true"; "AUTO_INCREMENT" := "true" ]});
   ("note", {[ "TYPE" := "text" ]});
   ("level", {[ "TYPE" := "int"; "NOT_NULL" := "true"; "DEFAULT" := "0" ]})].

Definition logsCRUD : CRUD := NewCRUD "logs" (list_to_map logsOrder).

(** The statement [Create] builds when the structure is visited in [order]. *)
Definition insertQuery (c : CRUD) (order : list (string * gmap string string)) : string :=
  "INSERT INTO " +:+ Table c +:+ " (" +:+ strings.Join (map fst order) ", "
  +:+ ") VALUES (" +:+ strings.Join (replicate (size (Structure c)) "?") ", " +:+ ")".

(** The statement the loop of lines 237-275 executes for one column of the
    descriptor, if any: [MODIFY] for a live column that differs,
    [ADD COLUMN] for a column that is not live. *)
Definition alter_statement (c : CRUD) (currentColumns : gmap string (gmap string string))
    (entry : string * gmap string string) : option string :=
  match currentColumns !! fst entry with
  | Some currentColInfo =>
      if differs currentColInfo (snd entry) then
        Some (with_options
                ("ALTER TABLE " +:+ Table c +:+ " MODIFY " +:+ fst entry +:+ " "
                 +:+ prop (snd entry) "TYPE") (snd entry))
      else None
  | None =>
      Some (with_options
              ("ALTER TABLE " +:+ Table c +:+ " ADD COLUMN " +:+ fst entry +:+ " "
               +:+ prop (snd entry) "TYPE") (snd entry))
  end.

(** The statement the loop of lines 278-290 executes, if any: for the first
    column visited that has [AUTO_INCREMENT], when it is live and not the
    primary key. *)
Fixpoint key_statement (c : CRUD) (currentColumns : gmap string (gmap string string))
    (order : list (string * gmap string string)) : option string :=
  match order with
  | [] => None
  | (col, properties) :: rest =>
      if decide (prop properties "AUTO_INCREMENT" = "true") then
        match currentColumns !! col with
        | Some currentColInfo =>
            if decide (prop currentColInfo "KEY" ≠ "PRI")
            then Some ("ALTER TABLE " +:+ Table c +:+ " ADD PRIMARY KEY (" +:+ col +:+ ")")
            else None
        | None => None
        end
      else key_statement c currentColumns rest
  end.

(** The three statements [Synchronize] can execute for a column. *)
Definition column_statements (c : CRUD) (entry : string * gmap string string) : list string :=
  [ with_options ("ALTER TABLE " +:+ Table c +:+ " MODIFY " +:+ fst entry +:+ " "
                  +:+ prop (snd entry) "TYPE") (snd entry);
    with_options ("ALTER TABLE " +:+ Table c +:+ " ADD COLUMN " +:+ fst entry +:+ " "
                  +:+ prop (snd entry) "TYPE") (snd entry);
    "ALTER TABLE " +:+ Table c +:+ " ADD PRIMARY KEY (" +:+ fst entry +:+ ")" ].

(** A store that accepts every statement, and one that rejects them all. *)
Definition accepts_all {S} (driver : Driver S) : Prop :=
  ∀ query args s, (drv_Exec driver query args s).1 = None.

Definition rejects_all {S} (driver : Driver S) : Prop :=
  ∀ query args s, is_Some (drv_Exec driver query args s).1.

(** The introspection of a run fails: the existence query fails, or the
    table is there and the column query fails or one of its rows does not
    scan. *)
Definition introspection_fails {S} (driver : Driver S) (c : CRUD) (s : S) : Prop :=
  (∃ msg s1, drv_QueryRow driver (tableExistsQuery c) s = (inl msg, s1))
  ∨ ∃ exists_ s1,
      drv_QueryRow driver (tableExistsQuery c) s = (inr exists_, s1) ∧ exists_ ≠ 0%Z
      ∧ ((∃ msg s2, drv_Query driver (showColumnsQuery c) s1 = (inl msg, s2))
         ∨ ∃ rows s2 msg,
             drv_Query driver (showColumnsQuery c) s1 = (inr rows, s2) ∧ inl msg ∈ rows).

(** The store of the examples, with every statement rejected. *)
Definition rejecting_store : Driver (option (list column_row)) := {|
  drv_Exec := λ _ _ s, (Some "denied", s);
  drv_QueryRow := drv_QueryRow example_store;
  drv_Query := drv_Query example_store;
|}.

(** The store of the examples, with rows that do not scan. *)
Definition unreadable_store : Driver (option (list column_row)) := {|
  drv_Exec := drv_Exec example_store;
  drv_QueryRow := drv_QueryRow example_store;
  drv_Query := λ _ s, (inr [inl "converting NULL to string is unsupported"], s);
|}.

(** A [users] table that lags behind [userStructure]: the key is not
    declared, the name is shorter, the email is missing, and there is a
    column the descriptor does not know. *)
Definition old_users_rows : list column_row := [
  {| field := Some "id"; colType := Some "int"; isNull := Some "NO";
     key := Some ""; defaultValue := None; extra := "" |};
  {| field := Some "name"; colType := Some "varchar(100)"; isNull := Some "NO";
     key := Some ""; defaultValue := None; extra := "" |};
  {| field := Some "legacy"; colType := Some "text"; isNull := Some "YES";
     key := Some ""; defaultValue := None; extra := "" |} ].

(** Every statement a computation executes satisfies [P]. *)
Definition executes_only {S A} (P : string → Prop) (m : DB S A) : Prop :=
  ∀ st query, query ∈ executed (m st).2.2 → query ∈ executed st.2 ∨ P query.

(** A statement of the descriptor: the [CREATE TABLE] statement, or one of
    the statements for a column of the descriptor. *)
Definition descriptor_statement (c : CRUD) (createOrder : list (string * gmap string string))
    (query : string) : Prop :=
  query = createTableQuery c createOrder
  ∨ ∃ col properties,
      Structure c !! col = Some properties ∧ query ∈ column_statements c (col, properties).

(** A computation that executes nothing and succeeds, or executes one
    statement and fails. *)
Definition nothing_or_one_failure {S} (m : DB S (option error)) (st : S * list call) : Prop :=
  ((m st).1 = None ∧ executed (m st).2.2 = executed st.2)
  ∨ (is_Some (m st).1 ∧ ∃ query, executed (m st).2.2 = executed st.2 ++ [query]).

(** ** Statements about two runs of the synchronizer *)

(** A store that keeps a table as it was declared: executing the statement
    [createTableQuery c createOrder] leaves the table with the rows
    [declared_rows createOrder]; every other statement is accepted and
    changes nothing.  The state is the rows of the table, or [None] while
    the table does not exist. *)
Definition declaring_store (c : CRUD) (createOrder : list (string * gmap string string))
  : Driver (option (list column_row)) := {|
  drv_Exec := λ query _ (s : option (list column_row)),
    (None, if decide (query = createTableQuery c createOrder)
           then Some (declared_rows createOrder) else s);
  drv_QueryRow := drv_QueryRow example_store;
  drv_Query := drv_Query example_store;
|}.



(** ** Statements about operator suffixes *)

(** The four suffixes of a leaf key. *)
Definition operator_suffix (suffix : string) : Prop := suffix ∈ [">"; "<"; "="; "%"].

(** What a filter with the one leaf [column comparison value] returns:
    its condition when the column is in the structure, the error naming
    the column otherwise. *)
Definition leaf_result (c : CRUD) (column comparison : string) (value : any)
  : string * list error :=
  match Structure c !! column with
  | Some _ => (condition column comparison value, [])
  | None => ("", [UnknownColumnError column])
  end.

(* ===================================================================== *)
(** * Properties of the filter compiler                                  *)
(* ===================================================================== *)

(** Well-formedness of a literal map: its keys are distinct. *)
Ltac solve_wf :=
  unfold wf_filter; simpl; repeat split; by apply (bool_decide_unpack _); vm_compute.

Lemma range_loop_nil {E St} (body : St → E → outcome St) st :
  range_loop body [] st = Returns st.
Proof. reflexivity. Qed.

Lemma range_loop_cons {E St} (body : St → E → outcome St) e rest st :
  range_loop body (e :: rest) st = obind (body st e) (range_loop body rest).
Proof. reflexivity. Qed.

Lemma obind_Returns {A B} (a : A) (f : A → outcome B) : obind (Returns a) f = f a.
Proof. reflexivity. Qed.

Section FilterCompilerProperties.

Variable c : CRUD.

Lemma where_entry_leaf rec st key value :
  is_or_group key = false → is_and_group key = false →
  where_entry c rec st (key, value) = where_leaf c st key value.
Proof. intros Hor Hand. unfold where_entry. by rewrite Hor, Hand. Qed.

Lemma where_leaf_known conditions errors key value column comparison value' properties :
  leaf_parts key value = Returns (column, comparison, value') →
  Structure c !! column = Some properties →
  where_leaf c (conditions, errors) key value
  = Returns (conditions ++ [condition column comparison value'], errors).
Proof. intros Hparts Hcol. unfold where_leaf. rewrite Hparts. simpl. by rewrite Hcol. Qed.

Lemma where_leaf_unknown conditions errors key value column comparison value' :
  leaf_parts key value = Returns (column, comparison, value') →
  Structure c !! column = None →
  where_leaf c (conditions, errors) key value
  = Returns (conditions, errors ++ [UnknownColumnError column]).
Proof. intros Hparts Hcol. unfold where_leaf. rewrite Hparts. simpl. by rewrite Hcol. Qed.

Lemma where_assert_map_eq filter logic :
  where_assert_map c (AMap filter) logic = PrepareWhereWithRootLogic c filter logic.
Proof. reflexivity. Qed.

End FilterCompilerProperties.

(** C2. For the filter [{"ghost": "x"}] and a descriptor with no column
    [ghost], [PrepareWhere] returns the empty predicate and exactly one
    error, whose message names [ghost]. *)
Theorem C2_unknown_column_example (c : CRUD) :
  Structure c !! "ghost" = None →
  PrepareWhere c [("ghost", AString "x")]
  = Returns ("", [Errorf "field 'ghost' does not exist in the structure"]).
Proof.
  intros Hghost. unfold PrepareWhere, PrepareWhereWithRootLogic.
  rewrite range_loop_cons, where_entry_leaf by reflexivity.
  rewrite (where_leaf_unknown c [] [] "ghost" (AString "x") "ghost" "=" (AString "x"))
    by (exact Hghost || reflexivity).
  reflexivity.
Qed.

Lemma C2_unknown_column_example_witness :
  PrepareWhere userCRUD [("ghost", AString "x")]
  = Returns ("", [Errorf "field 'ghost' does not exist in the structure"]).
Proof. apply (C2_unknown_column_example userCRUD). reflexivity. Defined.

Section FilterExamples.

Variable c : CRUD.

Lemma where_entry_or rec st key value :
  is_or_group key = true →
  where_entry c rec st (key, value) = where_group st (rec value "OR").
Proof. intros Hor. unfold where_entry. by rewrite Hor. Qed.

Lemma where_entry_and rec st key value :
  is_or_group key = false → is_and_group key = true →
  where_entry c rec st (key, value) = where_group st (rec value "AND").
Proof. intros Hor Hand. unfold where_entry. by rewrite Hor, Hand. Qed.

(** The nested group of the grouping example, visited in either order. *)
Lemma or_group_gt_lt :
  is_Some (Structure c !! "id") →
  PrepareWhereWithRootLogic c [("id>", AInt 1); ("id<", AInt 2)] "OR"
  = Returns (id_gt_1 +:+ " OR " +:+ id_lt_2, []).
Proof.
  intros [properties Hid]. unfold PrepareWhereWithRootLogic.
  rewrite range_loop_cons, where_entry_leaf by reflexivity.
  rewrite (where_leaf_known c [] [] "id>" (AInt 1) "id" ">" (AInt 1) properties)
    by (exact Hid || reflexivity).
  rewrite obind_Returns, range_loop_cons, where_entry_leaf by reflexivity.
  rewrite (where_leaf_known c _ [] "id<" (AInt 2) "id" "<" (AInt 2) properties)
    by (exact Hid || reflexivity).
  reflexivity.
Qed.

Lemma or_group_lt_gt :
  is_Some (Structure c !! "id") →
  PrepareWhereWithRootLogic c [("id<", AInt 2); ("id>", AInt 1)] "OR"
  = Returns (id_lt_2 +:+ " OR " +:+ id_gt_1, []).
Proof.
  intros [properties Hid]. unfold PrepareWhereWithRootLogic.
  rewrite range_loop_cons, where_entry_leaf by reflexivity.
  rewrite (where_leaf_known c [] [] "id<" (AInt 2) "id" "<" (AInt 2) properties)
    by (exact Hid || reflexivity).
  rewrite obind_Returns, range_loop_cons, where_entry_leaf by reflexivity.
  rewrite (where_leaf_known c _ [] "id>" (AInt 1) "id" ">" (AInt 1) properties)
    by (exact Hid || reflexivity).
  reflexivity.
Qed.

(** A filter that is one [[OR]] group. *)
Lemma single_or_group group clause :
  PrepareWhereWithRootLogic c group "OR" = Returns (clause, []) →
  clause ≠ "" →
  PrepareWhere c [("[OR]", AMap group)] = Returns ("(" +:+ clause +:+ ")", []).
Proof.
  intros Hgroup Hclause. unfold PrepareWhere, PrepareWhereWithRootLogic at 1.
  rewrite range_loop_cons, where_entry_or, where_assert_map_eq, Hgroup by reflexivity.
  unfold where_group. rewrite obind_Returns.
  destruct (decide (clause ≠ "")) as [_|]; [reflexivity | done].
Qed.

End FilterExamples.

(** C3 (as amended). For the filter [{"[OR]": {"id>": 1, "id<": 2}}] and a
    descriptor with a column [id], [PrepareWhere] returns no error and a
    predicate that is the nested group compiled with [OR], in parentheses,
    the integers between double quotes; the two conditions come in the
    order in which the loop visits the nested map, so the predicate is
    [(id > "1" OR id < "2")] when [id>] is visited first and
    [(id < "2" OR id > "1")] otherwise. *)
Theorem C3_or_group_example (c : CRUD) (group : list (string * any)) :
  is_Some (Structure c !! "id") →
  group ≡ₚ [("id>", AInt 1); ("id<", AInt 2)] →
  (group = [("id>", AInt 1); ("id<", AInt 2)]
   ∧ PrepareWhere c [("[OR]", AMap group)]
     = Returns ("(" +:+ id_gt_1 +:+ " OR " +:+ id_lt_2 +:+ ")", []))
  ∨ (group = [("id<", AInt 2); ("id>", AInt 1)]
     ∧ PrepareWhere c [("[OR]", AMap group)]
       = Returns ("(" +:+ id_lt_2 +:+ " OR " +:+ id_gt_1 +:+ ")", [])).
Proof.
  intros Hid Hperm. symmetry in Hperm.
  apply Permutation_length_2_inv in Hperm as [-> | ->]; [left | right];
    (split; [reflexivity |]).
  - apply (single_or_group c _ _ (or_group_gt_lt c Hid)). discriminate.
  - apply (single_or_group c _ _ (or_group_lt_gt c Hid)). discriminate.
Qed.

Lemma C3_or_group_example_witness :
  ([("id>", AInt 1); ("id<", AInt 2)] = [("id>", AInt 1); ("id<", AInt 2)]
   ∧ PrepareWhere userCRUD [("[OR]", AMap [("id>", AInt 1); ("id<", AInt 2)])]
     = Returns ("(" +:+ id_gt_1 +:+ " OR " +:+ id_lt_2 +:+ ")", []))
  ∨ ([("id>", AInt 1); ("id<", AInt 2)] = [("id<", AInt 2); ("id>", AInt 1)]
     ∧ PrepareWhere userCRUD [("[OR]", AMap [("id>", AInt 1); ("id<", AInt 2)])]
       = Returns ("(" +:+ id_lt_2 +:+ " OR " +:+ id_gt_1 +:+ ")", [])).
Proof.
  apply (C3_or_group_example userCRUD [("id>", AInt 1); ("id<", AInt 2)]).
  - exists (userStructure !!! "id"). reflexivity.
  - reflexivity.
Defined.

(** The claim C3 as stated fails when the loop over the nested map visits
    [id<] before [id>]: the same map then compiles to
    [(id < "2" OR id > "1")]. *)
Lemma C3_counterexample :
  wf_filter [("[OR]", AMap [("id<", AInt 2); ("id>", AInt 1)])]
  ∧ [("id<", AInt 2); ("id>", AInt 1)] ≡ₚ [("id>", AInt 1); ("id<", AInt 2)]
  ∧ PrepareWhere userCRUD [("[OR]", AMap [("id<", AInt 2); ("id>", AInt 1)])]
    = Returns ("(" +:+ id_lt_2 +:+ " OR " +:+ id_gt_1 +:+ ")", [])
  ∧ "(" +:+ id_lt_2 +:+ " OR " +:+ id_gt_1 +:+ ")"
    ≠ "(" +:+ id_gt_1 +:+ " OR " +:+ id_lt_2 +:+ ")".
Proof.
  split; [solve_wf |]. split; [apply perm_swap |].
  split; [vm_compute; reflexivity | discriminate].
Qed.

(** C4. For the filter [{"name": "Bob", "email%": "@example.com"}] and a
    descriptor with the columns [name] and [email], [PrepareWhere] returns
    no error and the conjunction, joined by [AND], of the two conditions
    [name = "Bob"] and [email LIKE "%@example.com%"] (the value of the key
    with the suffix [%] between two [%]); the conditions come in the order
    in which the loop visits the map, [name] first when the map is visited
    as written. *)
Theorem C4_literal_example (c : CRUD) (filter : list (string * any)) :
  is_Some (Structure c !! "name") →
  is_Some (Structure c !! "email") →
  filter ≡ₚ [("name", AString "Bob"); ("email%", AString "@example.com")] →
  ∃ conditions,
    PrepareWhere c filter = Returns (strings.Join conditions " AND ", [])
    ∧ conditions ≡ₚ [name_eq_Bob; email_like]
    ∧ (filter = [("name", AString "Bob"); ("email%", AString "@example.com")] →
       strings.Join conditions " AND " = name_eq_Bob +:+ " AND " +:+ email_like).
Proof.
  intros [pname Hname] [pemail Hemail] Hperm. symmetry in Hperm.
  apply Permutation_length_2_inv in Hperm as [-> | ->].
  - exists [name_eq_Bob; email_like]. split; [| split; [reflexivity | reflexivity]].
    unfold PrepareWhere, PrepareWhereWithRootLogic.
    rewrite range_loop_cons, where_entry_leaf by reflexivity.
    rewrite (where_leaf_known c [] [] "name" _ "name" "=" (AString "Bob") pname)
      by (exact Hname || reflexivity).
    rewrite obind_Returns, range_loop_cons, where_entry_leaf by reflexivity.
    rewrite (where_leaf_known c _ [] "email%" _ "email" "LIKE"
               (AString "%@example.com%") pemail)
      by (exact Hemail || reflexivity).
    reflexivity.
  - exists [email_like; name_eq_Bob]. split; [| split; [apply perm_swap | discriminate]].
    unfold PrepareWhere, PrepareWhereWithRootLogic.
    rewrite range_loop_cons, where_entry_leaf by reflexivity.
    rewrite (where_leaf_known c [] [] "email%" _ "email" "LIKE"
               (AString "%@example.com%") pemail)
      by (exact Hemail || reflexivity).
    rewrite obind_Returns, range_loop_cons, where_entry_leaf by reflexivity.
    rewrite (where_leaf_known c _ [] "name" _ "name" "=" (AString "Bob") pname)
      by (exact Hname || reflexivity).
    reflexivity.
Qed.

Lemma C4_literal_example_witness :
  ∃ conditions,
    PrepareWhere userCRUD [("name", AString "Bob"); ("email%", AString "@example.com")]
    = Returns (strings.Join conditions " AND ", [])
    ∧ conditions ≡ₚ [name_eq_Bob; email_like]
    ∧ ([("name", AString "Bob"); ("email%", AString "@example.com")]
       = [("name", AString "Bob"); ("email%", AString "@example.com")] →
       strings.Join conditions " AND " = name_eq_Bob +:+ " AND " +:+ email_like).
Proof.
  apply (C4_literal_example userCRUD).
  - exists (userStructure !!! "name"). reflexivity.
  - exists (userStructure !!! "email"). reflexivity.
  - reflexivity.
Defined.

(* --------------------------------------------------------------------- *)
(** ** What the loop does to its variables                               *)
(* --------------------------------------------------------------------- *)

Lemma leaf_parts_column key value column comparison value' :
  leaf_parts key value = Returns (column, comparison, value') →
  column = leaf_column key.
Proof.
  unfold leaf_parts, leaf_column.
  repeat case_match; intros; simplify_eq; reflexivity.
Qed.

Lemma HasSuffix_same_length s a b :
  strings.HasSuffix s a = true → strings.HasSuffix s b = true →
  String.length a = String.length b → a = b.
Proof.
  unfold strings.HasSuffix. intros Ha Hb Hlen. rewrite Hlen in Ha.
  destruct (decide (String.length b ≤ String.length s)); [| discriminate].
  apply String.eqb_eq in Ha, Hb. congruence.
Qed.

Lemma leaf_parts_like_panics key value :
  strings.HasSuffix key "%" = true → is_string value = false →
  leaf_parts key value = Panics.
Proof.
  intros Hlike Hvalue. unfold leaf_parts.
  destruct (strings.HasSuffix key ">") eqn:Hgt.
  { by pose proof (HasSuffix_same_length _ _ _ Hlike Hgt eq_refl). }
  destruct (strings.HasSuffix key "<") eqn:Hlt.
  { by pose proof (HasSuffix_same_length _ _ _ Hlike Hlt eq_refl). }
  destruct (strings.HasSuffix key "=") eqn:Heq.
  { by pose proof (HasSuffix_same_length _ _ _ Hlike Heq eq_refl). }
  rewrite Hlike. by destruct value.
Qed.

Lemma range_loop_panics {E St} (body : St → E → outcome St) e entries st :
  (∀ st, body st e = Panics) → e ∈ entries →
  range_loop body entries st = Panics.
Proof.
  intros Hbody Hin. revert st.
  induction entries as [|e' rest IH]; intros st; [by apply elem_of_nil in Hin |].
  rewrite range_loop_cons. apply elem_of_cons in Hin as [<- | Hin].
  - by rewrite Hbody.
  - destruct (body st e'); [by apply IH | reflexivity].
Qed.

Section LoopVariables.

Variable c : CRUD.
Variable rec : any → string → outcome (string * list error).

Lemma where_group_conditions conditions errors sub conditions' errors' :
  where_group (conditions, errors) sub = Returns (conditions', errors') →
  ∃ more, conditions' = conditions ++ more.
Proof.
  unfold where_group. destruct sub as [[clause subErrors]|]; [| discriminate].
  rewrite obind_Returns. intros [= <- _].
  destruct (decide (clause ≠ "")); [by eexists | exists []; by rewrite app_nil_r].
Qed.

Lemma where_leaf_conditions conditions errors key value conditions' errors' :
  where_leaf c (conditions, errors) key value = Returns (conditions', errors') →
  (is_Some (Structure c !! leaf_column key) → ∃ cond, conditions' = conditions ++ [cond])
  ∧ ∃ more, conditions' = conditions ++ more.
Proof.
  unfold where_leaf. destruct (leaf_parts key value) as [[[column comparison] value']|] eqn:Hparts;
    [| discriminate].
  apply leaf_parts_column in Hparts as ->. rewrite obind_Returns.
  destruct (Structure c !! leaf_column key) eqn:Hcol; intros [= <- _].
  - split; [by eexists | by eexists].
  - split; [by intros [? [=]] | exists []; by rewrite app_nil_r].
Qed.

Lemma where_entry_conditions conditions errors entry conditions' errors' :
  where_entry c rec (conditions, errors) entry = Returns (conditions', errors') →
  ∃ more, conditions' = conditions ++ more.
Proof.
  destruct entry as [key value]. unfold where_entry.
  destruct (is_or_group key); [apply where_group_conditions |].
  destruct (is_and_group key); [apply where_group_conditions |].
  intros Hleaf. by apply where_leaf_conditions in Hleaf as [_ ?].
Qed.

Lemma range_loop_conditions filter conditions errors conditions' errors' :
  range_loop (where_entry c rec) filter (conditions, errors)
  = Returns (conditions', errors') →
  ∃ more, conditions' = conditions ++ more.
Proof.
  revert conditions errors.
  induction filter as [|entry filter IH]; intros conditions errors.
  - rewrite range_loop_nil. intros [= <- _]. exists []. by rewrite app_nil_r.
  - rewrite range_loop_cons.
    destruct (where_entry c rec (conditions, errors) entry) as [[conditions1 errors1]|] eqn:Hentry;
      [| discriminate].
    rewrite obind_Returns. intros Hrest.
    apply where_entry_conditions in Hentry as [more1 ->].
    apply IH in Hrest as [more2 ->]. exists (more1 ++ more2). by rewrite app_assoc.
Qed.

(** A leaf on a column of the structure leaves a condition behind. *)
Lemma range_loop_valid_leaf filter key value conditions errors conditions' errors' :
  (key, value) ∈ filter →
  is_or_group key = false → is_and_group key = false →
  is_Some (Structure c !! leaf_column key) →
  range_loop (where_entry c rec) filter (conditions, errors)
  = Returns (conditions', errors') →
  0 < length conditions'.
Proof.
  intros Hin Hor Hand Hcol. revert conditions errors.
  induction filter as [|entry' rest IH]; intros conditions errors;
    [by apply elem_of_nil in Hin |].
  rewrite range_loop_cons. apply elem_of_cons in Hin as [<- | Hin].
  - rewrite where_entry_leaf by done.
    destruct (where_leaf c (conditions, errors) key value) as [[conditions1 errors1]|] eqn:Hleaf;
      [| discriminate].
    rewrite obind_Returns. intros Hrest.
    apply where_leaf_conditions in Hleaf as [Hcond _]. destruct (Hcond Hcol) as [cond ->].
    apply range_loop_conditions in Hrest as [more ->].
    rewrite !length_app. simpl. lia.
  - destruct (where_entry c rec (conditions, errors) entry') as [[conditions1 errors1]|];
      [| discriminate].
    rewrite obind_Returns. by apply IH.
Qed.

End LoopVariables.

(** Whenever a filter has, at its top level, a leaf on a column of the
    structure, every call that returns gives no error, whatever else the
    filter holds: the errors gathered are returned only with the empty
    predicate. *)
Lemma errors_dropped_with_valid_leaf (c : CRUD) filter logic key value clause errors :
  (key, value) ∈ filter →
  is_or_group key = false → is_and_group key = false →
  is_Some (Structure c !! leaf_column key) →
  PrepareWhereWithRootLogic c filter logic = Returns (clause, errors) →
  errors = [].
Proof.
  intros Hin Hor Hand Hcol. unfold PrepareWhereWithRootLogic.
  destruct (range_loop _ filter _) as [[conditions errors1]|] eqn:Hloop; [| discriminate].
  rewrite obind_Returns. unfold where_return.
  apply (range_loop_valid_leaf c _ _ _ _ _ _ _ _ Hin Hor Hand Hcol) in Hloop.
  destruct (decide (0 < length conditions)); [| lia]. by intros [= _ <-].
Qed.

(** C1 (the code at the failing input). The filter
    [{"name": "Bob", "ghost": "x"}] on the user structure has one leaf on a
    column of the structure and one on an unknown column.  In both orders
    of the visit [PrepareWhere] returns the predicate [name = "Bob"] and
    no error at all: line 162 returns [nil] for the errors whenever there
    is a condition, so the error gathered for [ghost] is dropped, where the
    claim has it returned beside the predicate. *)
Theorem C1_unknown_column_error_dropped :
  wf_filter [("name", AString "Bob"); ("ghost", AString "x")]
  ∧ userStructure !! "ghost" = None
  ∧ PrepareWhere userCRUD [("name", AString "Bob"); ("ghost", AString "x")]
    = Returns (name_eq_Bob, [])
  ∧ PrepareWhere userCRUD [("ghost", AString "x"); ("name", AString "Bob")]
    = Returns (name_eq_Bob, []).
Proof. split; [solve_wf |]. repeat split; vm_compute; reflexivity. Qed.

(** A filter panics, whatever the logic, as soon as the compiler reaches an
    entry whose type assertion fails. *)
Lemma reached_assertion_panics (c : CRUD) filter key value logic :
  reached filter (key, value) →
  (is_or_group key = false ∧ is_and_group key = false
   ∧ strings.HasSuffix key "%" = true ∧ is_string value = false)
  ∨ ((is_or_group key = true ∨ is_and_group key = true) ∧ is_map value = false) →
  PrepareWhereWithRootLogic c filter logic = Panics.
Proof.
  intros Hreached Hbad. revert logic.
  remember (key, value) as entry eqn:Hentry.
  induction Hreached as [filter entry Hin | filter key' group entry Hin Hgroup _ IH];
    intros logic; unfold PrepareWhereWithRootLogic.
  - subst entry. rewrite (range_loop_panics _ (key, value)); [reflexivity | | exact Hin].
    intros [conditions errors].
    destruct Hbad as [(Hor & Hand & Hlike & Hvalue) | [Hgroup Hvalue]].
    + rewrite where_entry_leaf by done. unfold where_leaf.
      by rewrite leaf_parts_like_panics.
    + assert (∀ logic, where_assert_map c value logic = Panics) as Hassert
          by (intros logic'; by destruct value).
      unfold where_entry.
      destruct (is_or_group key); [by rewrite Hassert |].
      destruct Hgroup as [[=] | ->]. by rewrite Hassert.
  - rewrite (range_loop_panics _ (key', AMap group)); [reflexivity | | exact Hin].
    intros [conditions errors]. unfold where_entry.
    destruct (is_or_group key'); [by rewrite where_assert_map_eq, (IH Hentry) |].
    destruct Hgroup as [[=] | ->]. by rewrite where_assert_map_eq, (IH Hentry).
Qed.

(** C10 (as amended). [PrepareWhere] panics on every filter in which it
    reaches an entry whose key is not a group tag, ends in [%] and whose
    value is not a string, and on every filter in which it reaches an entry
    whose key is or starts with [[OR]] or [[AND]] and whose value is not a
    map: the type assertion of line 143, 107 or 117 fails. *)
Theorem C10_type_assertion_panics (c : CRUD) filter key value :
  reached filter (key, value) →
  (is_or_group key = false ∧ is_and_group key = false
   ∧ strings.HasSuffix key "%" = true ∧ is_string value = false)
  ∨ ((is_or_group key = true ∨ is_and_group key = true) ∧ is_map value = false) →
  PrepareWhere c filter = Panics.
Proof. intros Hreached Hbad. by apply (reached_assertion_panics c filter key value). Qed.

Lemma C10_type_assertion_panics_witness :
  PrepareWhere userCRUD [("id%", AInt 1)] = Panics
  ∧ PrepareWhere userCRUD [("[OR]", AInt 1)] = Panics.
Proof.
  split.
  - apply (C10_type_assertion_panics userCRUD _ "id%" (AInt 1)).
    + apply reached_here, list_elem_of_here.
    + left. repeat split; reflexivity.
  - apply (C10_type_assertion_panics userCRUD _ "[OR]" (AInt 1)).
    + apply reached_here, list_elem_of_here.
    + right. split; [left |]; reflexivity.
Defined.

(** The claim C10 as stated fails for a group tag that ends in [%]: the
    key [[OR]%] ends in [%], its value, the empty map, is not a string,
    and the call returns. *)
Lemma C10_counterexample :
  wf_filter [("[OR]%", AMap [])]
  ∧ strings.HasSuffix "[OR]%" "%" = true
  ∧ is_string (AMap []) = false
  ∧ PrepareWhere userCRUD [("[OR]%", AMap [])] = Returns ("", []).
Proof. split; [solve_wf |]. repeat split; vm_compute; reflexivity. Qed.

(* ===================================================================== *)
(** * Properties of the record writer                                    *)
(* ===================================================================== *)

Lemma append_length (s t : string) :
  String.length (s +:+ t) = String.length s + String.length t.
Proof. induction s as [|a s IH]; simpl; [reflexivity | by rewrite IH]. Qed.

Lemma append_inv_tail (s1 s2 t : string) : s1 +:+ t = s2 +:+ t → s1 = s2.
Proof.
  revert s2. induction s1 as [|a s1 IH]; intros [|b s2] Heq; simpl in Heq.
  - reflexivity.
  - apply (f_equal String.length) in Heq. rewrite !append_length in Heq. simpl in Heq. lia.
  - apply (f_equal String.length) in Heq. rewrite !append_length in Heq. simpl in Heq. lia.
  - injection Heq as -> Heq. by rewrite (IH _ Heq).
Qed.

Lemma ValidationError_inj col1 col2 :
  ValidationError col1 = ValidationError col2 → col1 = col2.
Proof.
  unfold ValidationError. intros [= Heq]. by apply (append_inv_tail col1 col2) in Heq.
Qed.

Lemma userOrder_range : range_order userStructure userOrder.
Proof.
  unfold range_order. change userStructure with (list_to_map userOrder : gmap _ _).
  symmetry. apply map_to_list_to_map. compute_done.
Qed.

Lemma range_order_lookup {V} (m : gmap string V) order k v :
  range_order m order → (k, v) ∈ order ↔ m !! k = Some v.
Proof. unfold range_order. intros ->. apply elem_of_map_to_list. Qed.

Lemma required_true properties :
  required properties = true ↔
  prop properties "NOT_NULL" = "true" ∧ prop properties "DEFAULT" = ""
  ∧ prop properties "AUTO_INCREMENT" ≠ "true".
Proof.
  unfold required. rewrite !andb_true_iff, !bool_decide_eq_true. tauto.
Qed.

Lemma check_required_Some order data err :
  check_required order data = Some err →
  ∃ col properties,
    (col, properties) ∈ order ∧ required properties = true
    ∧ data !! col = None ∧ err = ValidationError col.
Proof.
  induction order as [|[col properties] rest IH]; simpl; [discriminate |].
  destruct (required properties) eqn:Hreq.
  - destruct (data !! col) eqn:Hdata.
    + intros Hrest. destruct (IH Hrest) as (col' & properties' & Hin & ?).
      exists col', properties'. split; [by apply list_elem_of_further | done].
    + intros [= <-]. exists col, properties. split; [apply list_elem_of_here | done].
  - intros Hrest. destruct (IH Hrest) as (col' & properties' & Hin & ?).
    exists col', properties'. split; [by apply list_elem_of_further | done].
Qed.

Lemma check_required_None order data col properties :
  check_required order data = None →
  (col, properties) ∈ order → required properties = true →
  is_Some (data !! col).
Proof.
  intros Hcheck Hin Hreq.
  induction order as [|[col' properties'] rest IH]; [by apply elem_of_nil in Hin |].
  simpl in Hcheck. apply elem_of_cons in Hin as [[= <- <-] | Hin].
  - rewrite Hreq in Hcheck. destruct (data !! col); [by eexists | discriminate].
  - apply IH; [| done]. destruct (required properties'); [| done].
    by destruct (data !! col').
Qed.

(** The validation loop against the descriptor: it fails exactly when a
    required column is missing, and then names one. *)
Lemma check_required_spec (c : CRUD) data order :
  range_order (Structure c) order →
  match check_required order data with
  | Some err => ∃ col, err = ValidationError col ∧ missing_required c data col
  | None => ∀ col, ¬ missing_required c data col
  end.
Proof.
  intros Horder. destruct (check_required order data) as [err|] eqn:Hcheck.
  - apply check_required_Some in Hcheck as (col & properties & Hin & Hreq & Hdata & ->).
    exists col. split; [reflexivity |]. exists properties.
    apply (range_order_lookup _ _ _ _ Horder) in Hin. apply required_true in Hreq. tauto.
  - intros col (properties & Hcol & Hnn & Hdef & Hauto & Hdata).
    apply (range_order_lookup _ _ _ _ Horder) in Hcol.
    destruct (check_required_None _ _ _ _ Hcheck Hcol) as [v Hv]; [| congruence].
    apply required_true. tauto.
Qed.

Section RecordWriterProperties.

Context {S : Type} (driver : Driver S).
Variable c : CRUD.

Lemma Exec_run query args (s : S) log :
  Exec driver query args (s, log)
  = (DriverError <$> (drv_Exec driver query args s).1,
     ((drv_Exec driver query args s).2, log ++ [CExec query args])).
Proof. unfold Exec. by destruct (drv_Exec driver query args s). Qed.

Lemma Exec_not_built query args st msg :
  (Exec driver query args st).1 ≠ Some (Errorf msg).
Proof.
  destruct st as [s log]. rewrite Exec_run. simpl.
  by destruct (drv_Exec driver query args s).1.
Qed.

End RecordWriterProperties.

(** C5. [Create] returns a validation error, naming a missing field, if
    and only if some column of the descriptor has [NOT_NULL] set to
    ["true"], an empty [DEFAULT], [AUTO_INCREMENT] other than ["true"],
    and no entry in the input; the field it names is such a column, and
    the error is returned with the store and the log of calls as they
    were: no statement has been executed. *)
Theorem C5_create_required_fields {S} (driver : Driver S) (c : CRUD)
    (data : gmap string any) order1 order2 (st : S * list call) :
  range_order (Structure c) order1 →
  ((∃ col, (Create driver c data order1 order2 st).1 = Some (ValidationError col))
   ↔ (∃ col, missing_required c data col))
  ∧ (∀ col, (Create driver c data order1 order2 st).1 = Some (ValidationError col) →
       missing_required c data col
       ∧ (Create driver c data order1 order2 st).2 = st).
Proof.
  intros Horder. pose proof (check_required_spec c data order1 Horder) as Hspec.
  unfold Create. destruct (check_required order1 data) as [err|].
  - destruct Hspec as (col & -> & Hmissing). split.
    + split; [by exists col | by exists col].
    + intros col' Heq. simpl in Heq. apply (inj Some) in Heq.
      apply ValidationError_inj in Heq as <-. done.
  - split.
    + split; [intros [col Hcol]; by apply Exec_not_built in Hcol
             | intros [col Hcol]; by apply Hspec in Hcol].
    + intros col Hcol. by apply Exec_not_built in Hcol.
Qed.

Lemma C5_create_required_fields_witness :
  ((∃ col, (Create example_store userCRUD {[ "email" := AString "no_name@example.com" ]}
              (map_to_list userStructure) (map_to_list userStructure)
              (Some users_rows, [])).1 = Some (ValidationError col))
   ↔ (∃ col, missing_required userCRUD {[ "email" := AString "no_name@example.com" ]} col))
  ∧ (∀ col, (Create example_store userCRUD {[ "email" := AString "no_name@example.com" ]}
               (map_to_list userStructure) (map_to_list userStructure)
               (Some users_rows, [])).1 = Some (ValidationError col) →
       missing_required userCRUD {[ "email" := AString "no_name@example.com" ]} col
       ∧ (Create example_store userCRUD {[ "email" := AString "no_name@example.com" ]}
            (map_to_list userStructure) (map_to_list userStructure)
            (Some users_rows, [])).2 = (Some users_rows, [])).
Proof. apply C5_create_required_fields. unfold range_order. reflexivity. Defined.

(** The example of [main]: the name is missing, [Create] says so and
    leaves the store alone. *)
Example create_without_name :
  Create example_store userCRUD {[ "email" := AString "no_name@example.com" ]}
    userOrder userOrder (Some users_rows, [])
  = (Some (Errorf "field 'name' cannot be null"), (Some users_rows, [])).
Proof. vm_compute. reflexivity. Qed.

Lemma set_clauses_range (data : gmap string any) dataOrder :
  range_order data dataOrder →
  set_clauses data dataOrder = (map (λ e, fst e +:+ " = ?") dataOrder, map snd dataOrder).
Proof.
  intros Horder.
  assert (∀ e, e ∈ dataOrder → data !! fst e = Some (snd e)) as Hin.
  { intros [k v] Hkv. by apply (range_order_lookup _ _ _ _ Horder). }
  clear Horder. unfold set_clauses.
  enough (∀ setClauses values,
    fold_left
      (λ '(setClauses, values) e,
        match data !! fst e with
        | Some value => (setClauses ++ [fst e +:+ " = ?"], values ++ [value])
        | None => (setClauses, values)
        end) dataOrder (setClauses, values)
    = (setClauses ++ map (λ e, fst e +:+ " = ?") dataOrder,
       values ++ map snd dataOrder)) as Hfold by apply Hfold.
  induction dataOrder as [|e rest IH]; intros setClauses values; simpl.
  - by rewrite !app_nil_r.
  - rewrite (Hin e) by apply list_elem_of_here.
    rewrite IH by (intros e' He'; apply Hin; by apply list_elem_of_further).
    by rewrite <- !app_assoc.
Qed.

Lemma range_order_keys {V} (m : gmap string V) order col :
  range_order m order → col ∈ map fst order ↔ is_Some (m !! col).
Proof.
  intros Horder. change (map fst order) with (fst <$> order).
  rewrite list_elem_of_fmap. split.
  - intros ([k v] & -> & Hin). apply (range_order_lookup _ _ _ _ Horder) in Hin. by eexists.
  - intros [v Hv]. exists (col, v). split; [reflexivity |].
    by apply (range_order_lookup _ _ _ _ Horder).
Qed.

(** C6. [Update] validates like [Create], against the whole descriptor:
    it returns the validation error for a column exactly when [Create]
    does; whenever a required column of the descriptor has no entry in the
    input it returns a validation error naming such a column, before any
    call to the store; otherwise it executes one statement, whose [SET]
    clause has one [col = ?] per key of the input, in the order of the
    visit, followed by [WHERE id = ?], with the values and then [id] as
    arguments. *)
Theorem C6_update_required_fields {S} (driver : Driver S) (c : CRUD) (id : string)
    (data : gmap string any) order1 order2 dataOrder (s : S) (log : list call) :
  range_order (Structure c) order1 →
  range_order data dataOrder →
  (∀ col, (Update driver c id data order1 dataOrder (s, log)).1 = Some (ValidationError col)
          ↔ (Create driver c data order1 order2 (s, log)).1 = Some (ValidationError col))
  ∧ ((∃ col, missing_required c data col) →
     ∃ col, missing_required c data col
            ∧ Update driver c id data order1 dataOrder (s, log)
              = (Some (ValidationError col), (s, log)))
  ∧ ((∀ col, ¬ missing_required c data col) →
     let args := map snd dataOrder ++ [AString id] in
     let answer := drv_Exec driver (updateQuery c dataOrder) args s in
     Update driver c id data order1 dataOrder (s, log)
     = (DriverError <$> answer.1, (answer.2, log ++ [CExec (updateQuery c dataOrder) args]))
     ∧ ∀ col, col ∈ map fst dataOrder ↔ is_Some (data !! col)).
Proof.
  intros Horder Hdata. pose proof (check_required_spec c data order1 Horder) as Hspec.
  unfold Update, Create. rewrite (set_clauses_range _ _ Hdata).
  destruct (check_required order1 data) as [err|].
  - destruct Hspec as (col & -> & Hmissing). split; [done |]. split.
    + intros _. by exists col.
    + intros Hnone. by apply Hnone in Hmissing.
  - split; [| split].
    + intros col. split; intros Hcol; by apply Exec_not_built in Hcol.
    + intros [col Hcol]. by apply Hspec in Hcol.
    + intros _. split; [apply Exec_run | intros col; by apply range_order_keys].
Qed.

(** The call [Update("2", map[string]any{})] of [main]. *)
Lemma C6_update_required_fields_witness :
  (∀ col, (Update example_store userCRUD "2" ∅ (map_to_list userStructure) []
             (Some users_rows, [])).1 = Some (ValidationError col)
          ↔ (Create example_store userCRUD ∅ (map_to_list userStructure)
               (map_to_list userStructure) (Some users_rows, [])).1
            = Some (ValidationError col))
  ∧ ((∃ col, missing_required userCRUD ∅ col) →
     ∃ col, missing_required userCRUD ∅ col
            ∧ Update example_store userCRUD "2" ∅ (map_to_list userStructure) []
                (Some users_rows, [])
              = (Some (ValidationError col), (Some users_rows, [])))
  ∧ ((∀ col, ¬ missing_required userCRUD ∅ col) →
     let args := map snd ([] : list (string * any)) ++ [AString "2"] in
     let answer := drv_Exec example_store (updateQuery userCRUD []) args (Some users_rows) in
     Update example_store userCRUD "2" ∅ (map_to_list userStructure) []
       (Some users_rows, [])
     = (DriverError <$> answer.1,
        (answer.2, [] ++ [CExec (updateQuery userCRUD []) args]))
     ∧ ∀ col, col ∈ map fst ([] : list (string * any))
              ↔ is_Some ((∅ : gmap string any) !! col)).
Proof.
  apply (C6_update_required_fields example_store userCRUD "2" ∅
           (map_to_list userStructure) (map_to_list userStructure) []).
  - unfold range_order. reflexivity.
  - unfold range_order. rewrite map_to_list_empty. reflexivity.
Defined.

(** The two calls of [main]: the empty update is refused, the full one
    is executed. *)
Example update_empty :
  Update example_store userCRUD "2" ∅ userOrder [] (Some users_rows, [])
  = (Some (Errorf "field 'name' cannot be null"), (Some users_rows, [])).
Proof. vm_compute. reflexivity. Qed.

Example update_name_email :
  (Update example_store userCRUD "1"
     {[ "name" := AString "Updated Name"; "email" := AString "updated.email@example.com" ]}
     userOrder
     [("name", AString "Updated Name"); ("email", AString "updated.email@example.com")]
     (Some users_rows, [])).2.2
  = [CExec "UPDATE users SET name = ?, email = ? WHERE id = ?"
       [AString "Updated Name"; AString "updated.email@example.com"; AString "1"]].
Proof. vm_compute. reflexivity. Qed.

(** C7. On a user-record writer, [Delete("1")] returns the permission
    error and leaves the store and the log of calls as they were; for
    every other id, [Delete] is the base [Delete], which executes the one
    statement [DELETE FROM <table> WHERE id = ?] with the id as argument
    and returns what the store answers. *)
Theorem C7_user_delete_protected {S} (driver : Driver S) (u : UserCRUD)
    (s : S) (log : list call) :
  UserCRUD_Delete driver u "1" (s, log) = (Some PermissionError, (s, log))
  ∧ ∀ id, id ≠ "1" →
      let query := "DELETE FROM " +:+ Table (UserCRUD_CRUD u) +:+ " WHERE id = ?" in
      let answer := drv_Exec driver query [AString id] s in
      UserCRUD_Delete driver u id = Delete driver (UserCRUD_CRUD u) id
      ∧ UserCRUD_Delete driver u id (s, log)
        = (DriverError <$> answer.1, (answer.2, log ++ [CExec query [AString id]])).
Proof.
  split; [reflexivity |]. intros id Hid. unfold UserCRUD_Delete.
  destruct (decide (id = "1")); [done |]. split; [reflexivity | apply Exec_run].
Qed.

(** The two calls of [main]. *)
Lemma C7_user_delete_protected_witness :
  UserCRUD_Delete example_store NewUserCRUD "1" (Some users_rows, [])
  = (Some (Errorf "deletion forbidden for user with ID = 1"), (Some users_rows, []))
  ∧ UserCRUD_Delete example_store NewUserCRUD "2" (Some users_rows, [])
    = (None, (Some users_rows, [CExec "DELETE FROM users WHERE id = ?" [AString "2"]])).
Proof.
  split.
  - apply (C7_user_delete_protected example_store NewUserCRUD (Some users_rows) []).
  - apply (C7_user_delete_protected example_store NewUserCRUD (Some users_rows) []).
    discriminate.
Defined.

(* ===================================================================== *)
(** * Properties of the schema synchronizer                              *)
(* ===================================================================== *)

Lemma append_assoc (s t u : string) : (s +:+ t) +:+ u = s +:+ t +:+ u.
Proof.
  induction s as [|a s IH]; [reflexivity |].
  change (String a ((s +:+ t) +:+ u) = String a (s +:+ t +:+ u)). by rewrite IH.
Qed.

Lemma create_fields_no_auto_increment order :
  (∀ col properties, (col, properties) ∈ order →
     prop properties "AUTO_INCREMENT" ≠ "true") →
  create_fields order = (map fieldDef order, "").
Proof.
  intros Hnone. unfold create_fields.
  enough (∀ fieldDefinitions,
    fold_left
      (λ '(fieldDefinitions, primaryKeyColumn) '(col, properties),
        let fieldDef := with_options (col +:+ " " +:+ prop properties "TYPE") properties in
        let primaryKeyColumn :=
          if decide (prop properties "AUTO_INCREMENT" = "true") then col
          else primaryKeyColumn in
        (fieldDefinitions ++ [fieldDef], primaryKeyColumn))
      order (fieldDefinitions, "")
    = (fieldDefinitions ++ map fieldDef order, "")) as Hfold by apply Hfold.
  induction order as [|[col properties] rest IH]; intros fieldDefinitions; simpl.
  - by rewrite app_nil_r.
  - destruct (decide (prop properties "AUTO_INCREMENT" = "true")) as [Hauto|_].
    { by apply (Hnone col properties) in Hauto; [| apply list_elem_of_here]. }
    rewrite IH by (intros col' ??; apply (Hnone col'); by apply list_elem_of_further).
    by rewrite <- app_assoc.
Qed.

Section SynchronizerProperties.

Context {S : Type} (driver : Driver S).
Variable c : CRUD.

Lemma bind_run {A B} (m : DB S A) (f : A → DB S B) st :
  (m ≫= f) st = f (m st).1 (m st).2.
Proof. unfold mbind, DB_bind. by destruct (m st). Qed.

Lemma QueryRow_run query (s : S) log :
  QueryRow driver query (s, log)
  = (sum_map DriverError id (drv_QueryRow driver query s).1,
     ((drv_QueryRow driver query s).2, log ++ [CQueryRow query])).
Proof. unfold QueryRow. by destruct (drv_QueryRow driver query s). Qed.

Lemma Query_run query (s : S) log :
  Query driver query (s, log)
  = (sum_map DriverError (map (sum_map DriverError id)) (drv_Query driver query s).1,
     ((drv_Query driver query s).2, log ++ [CQuery query])).
Proof. unfold Query. by destruct (drv_Query driver query s). Qed.

Lemma exec_ddl_run what query (s : S) log :
  exec_ddl driver what query (s, log)
  = ((λ msg, Errorf (what +:+ ": " +:+ msg +:+ "; query: " +:+ query))
       <$> (drv_Exec driver query [] s).1,
     ((drv_Exec driver query [] s).2, log ++ [CExec query []])).
Proof.
  unfold exec_ddl. rewrite bind_run, Exec_run. simpl.
  by destruct (drv_Exec driver query [] s).1.
Qed.

End SynchronizerProperties.

(** C9. For a descriptor with no [AUTO_INCREMENT] column, when the table
    does not exist, [Synchronize] executes one statement, the
    [CREATE TABLE] statement, and that statement ends in
    [, PRIMARY KEY ())]: the primary key clause is there with an empty
    column name. *)
Theorem C9_create_without_auto_increment {S} (driver : Driver S) (c : CRUD)
    createOrder alterOrder keyOrder (s s1 : S) (log : list call) :
  range_order (Structure c) createOrder →
  (∀ col properties, Structure c !! col = Some properties →
     prop properties "AUTO_INCREMENT" ≠ "true") →
  drv_QueryRow driver (tableExistsQuery c) s = (inr 0%Z, s1) →
  let statement :=
    ("CREATE TABLE " +:+ Table c +:+ " ("
     +:+ strings.Join (map fieldDef createOrder) ", ") +:+ ", PRIMARY KEY ())" in
  (Synchronize driver c createOrder alterOrder keyOrder (s, log)).2.2
  = log ++ [CQueryRow (tableExistsQuery c); CExec statement []].
Proof.
  intros Horder Hnone Hexists statement. unfold Synchronize.
  rewrite bind_run, QueryRow_run, Hexists. simpl.
  rewrite exec_ddl_run. simpl. rewrite <- app_assoc. simpl. do 3 f_equal.
  unfold createTableQuery. rewrite create_fields_no_auto_increment.
  - unfold statement. by rewrite !append_assoc.
  - intros col properties Hin. apply (Hnone col).
    by apply (range_order_lookup _ _ _ _ Horder).
Qed.

Lemma C9_create_without_auto_increment_witness :
  (Synchronize example_store notesCRUD (map_to_list (Structure notesCRUD)) [] [] (None, [])).2.2
  = [] ++ [CQueryRow (tableExistsQuery notesCRUD);
           CExec "CREATE TABLE notes (title varchar(255) NOT NULL, PRIMARY KEY ())" []].
Proof.
  refine (eq_trans
            (C9_create_without_auto_increment example_store notesCRUD
               (map_to_list (Structure notesCRUD)) [] [] None None [] _ _ _) _).
  - unfold range_order. reflexivity.
  - intros col properties Hcol. simpl in Hcol.
    apply lookup_singleton_Some in Hcol as [_ <-]. discriminate.
  - reflexivity.
  - vm_compute. reflexivity.
Defined.

(** ** Idempotence *)
Section Idempotence.

Context {S : Type} (driver : Driver S).
Variable c : CRUD.
Variable currentColumns : gmap string (gmap string string).
Hypothesis Hlive : live_matches (Structure c) currentColumns.

Lemma alter_column_nothing order st :
  (∀ col properties, (col, properties) ∈ order → Structure c !! col = Some properties) →
  for_each (alter_column driver c currentColumns) order st = (None, st).
Proof using Hlive.
  induction order as [|[col properties] rest IH]; intros Hin; [reflexivity |].
  simpl. rewrite bind_run.
  destruct (Hlive col properties) as (info & Hinfo & Htype & Hnull & Hdefault & _).
  { apply Hin, list_elem_of_here. }
  assert (differs info properties = false) as Hsame.
  { unfold differs. rewrite Htype.
    rewrite (bool_decide_eq_false_2 (_ ≠ _)) by (intros Hne; by apply Hne).
    destruct (decide (prop properties "NOT_NULL" = "true")) as [Hnn|Hnn].
    - rewrite (bool_decide_eq_false_2 (prop info "NULL" = "YES")) by by apply Hnull.
      rewrite andb_false_r. simpl.
      destruct (decide (prop properties "DEFAULT" ≠ "")) as [Hd|Hd].
      + rewrite (bool_decide_eq_false_2 (prop info "DEFAULT" ≠ _));
          [by rewrite andb_false_r | rewrite (Hdefault Hd); by intros Hne].
      + by rewrite (bool_decide_eq_false_2 _ Hd).
    - rewrite (bool_decide_eq_false_2 _ Hnn). simpl.
      destruct (decide (prop properties "DEFAULT" ≠ "")) as [Hd|Hd].
      + rewrite (bool_decide_eq_false_2 (prop info "DEFAULT" ≠ _));
          [by rewrite andb_false_r | rewrite (Hdefault Hd); by intros Hne].
      + by rewrite (bool_decide_eq_false_2 _ Hd). }
  unfold alter_column at 1. rewrite Hinfo, Hsame. simpl.
  apply IH. intros ???. by apply Hin, list_elem_of_further.
Qed.

Lemma ensure_primary_key_nothing order st :
  (∀ col properties, (col, properties) ∈ order → Structure c !! col = Some properties) →
  ensure_primary_key driver c currentColumns order st = (None, st).
Proof using Hlive.
  induction order as [|[col properties] rest IH]; intros Hin; [reflexivity |].
  simpl. destruct (decide (prop properties "AUTO_INCREMENT" = "true")) as [Hauto|_].
  - destruct (Hlive col properties) as (info & Hinfo & _ & _ & _ & Hkey).
    { apply Hin, list_elem_of_here. }
    rewrite Hinfo. destruct (decide (prop info "KEY" ≠ "PRI")) as [Hne|_]; [| reflexivity].
    by destruct (Hne (Hkey Hauto)).
  - apply IH. intros ???. by apply Hin, list_elem_of_further.
Qed.

End Idempotence.

Lemma synchronize_in_sync {S} (driver : Driver S) (c : CRUD)
    createOrder alterOrder keyOrder (s s1 s2 : S) (log : list call)
    (exists_ : Z) rows currentColumns :
  range_order (Structure c) alterOrder →
  range_order (Structure c) keyOrder →
  drv_QueryRow driver (tableExistsQuery c) s = (inr exists_, s1) →
  exists_ ≠ 0%Z →
  drv_Query driver (showColumnsQuery c) s1 = (inr rows, s2) →
  scan_rows c (map (sum_map DriverError id) rows) ∅ = inr currentColumns →
  live_matches (Structure c) currentColumns →
  Synchronize driver c createOrder alterOrder keyOrder (s, log)
  = (None, (s2, log ++ [CQueryRow (tableExistsQuery c); CQuery (showColumnsQuery c);
                        CRowsClose])).
Proof.
  intros Halter Hkey Hexists Hne Hquery Hscan Hlive.
  unfold Synchronize. rewrite bind_run, QueryRow_run, Hexists. simpl.
  destruct (decide (exists_ = 0%Z)) as [|_]; [done |].
  rewrite bind_run, Query_run, Hquery. simpl. rewrite Hscan.
  rewrite !bind_run.
  rewrite (alter_column_nothing driver c currentColumns Hlive)
    by (intros ???; by apply (range_order_lookup _ _ _ _ Halter)).
  simpl.
  rewrite (ensure_primary_key_nothing driver c currentColumns Hlive)
    by (intros ???; by apply (range_order_lookup _ _ _ _ Hkey)).
  simpl. by rewrite <- !app_assoc.
Qed.

(** ** The table as the first run creates it *)

Lemma scan_rows_scanned c rows currentColumns :
  scan_rows c (map inr rows) currentColumns = inr (scanned rows currentColumns).
Proof.
  revert currentColumns. induction rows as [|r rows IH]; intros currentColumns;
    [reflexivity | apply IH].
Qed.

Lemma scanned_other rows currentColumns col :
  col ∉ map (λ r, NullString_String (field r)) rows →
  scanned rows currentColumns !! col = currentColumns !! col.
Proof.
  revert currentColumns. induction rows as [|r rows IH]; intros currentColumns Hnotin;
    [reflexivity |].
  simpl in Hnotin. apply not_elem_of_cons in Hnotin as [Hne Hnotin].
  unfold scanned. simpl. fold (scanned rows). rewrite IH by done.
  by rewrite lookup_insert_ne.
Qed.

Lemma scanned_declared primaryKeyColumn order currentColumns col properties :
  NoDup (map fst order) → (col, properties) ∈ order →
  scanned (map (declared_row primaryKeyColumn) order) currentColumns !! col
  = Some (column_info (declared_row primaryKeyColumn (col, properties))).
Proof.
  revert currentColumns.
  induction order as [|[col' properties'] rest IH]; intros currentColumns Hnodup Hin;
    [by apply elem_of_nil in Hin |].
  simpl in Hnodup. apply NoDup_cons in Hnodup as [Hfresh Hnodup].
  unfold scanned. simpl. fold (scanned (map (declared_row primaryKeyColumn) rest)).
  apply elem_of_cons in Hin as [[= <- <-] | Hin].
  - rewrite scanned_other; [apply lookup_insert_eq |].
    rewrite map_map.
    replace (map (λ e, NullString_String (field (declared_row primaryKeyColumn e))) rest)
      with (map fst rest); [done |].
    apply map_ext. by intros [??].
  - by apply IH.
Qed.

Lemma create_fields_primary_key order col properties :
  (∀ col' properties', (col', properties') ∈ order →
     prop properties' "AUTO_INCREMENT" = "true" → col' = col) →
  (col, properties) ∈ order →
  prop properties "AUTO_INCREMENT" = "true" →
  snd (create_fields order) = col.
Proof.
  intros Hunique Hin Hauto. unfold create_fields.
  enough (∀ fieldDefinitions primaryKeyColumn,
    (col, properties) ∈ order ∨ primaryKeyColumn = col →
    snd (fold_left
      (λ '(fieldDefinitions, primaryKeyColumn) '(col, properties),
        let fieldDef := with_options (col +:+ " " +:+ prop properties "TYPE") properties in
        let primaryKeyColumn :=
          if decide (prop properties "AUTO_INCREMENT" = "true") then col
          else primaryKeyColumn in
        (fieldDefinitions ++ [fieldDef], primaryKeyColumn))
      order (fieldDefinitions, primaryKeyColumn)) = col) as Hfold
    by (apply Hfold; by left).
  clear Hin. induction order as [|[col' properties'] rest IH];
    intros fieldDefinitions primaryKeyColumn Hcase.
  - destruct Hcase as [Hin | ->]; [by apply elem_of_nil in Hin | reflexivity].
  - simpl. apply IH.
    + intros ????. eapply Hunique; [by apply list_elem_of_further | done].
    + destruct Hcase as [Hin | ->].
      * apply elem_of_cons in Hin as [[= <- <-] | Hin]; [right | by left].
        by destruct (decide (prop properties "AUTO_INCREMENT" = "true")).
      * right. destruct (decide (prop properties' "AUTO_INCREMENT" = "true")); [| done].
        eapply Hunique; [apply list_elem_of_here | done].
Qed.

(** The rows of the table that the first run creates agree with the
    descriptor, whenever at most one column has [AUTO_INCREMENT]. *)
Lemma declared_rows_live_matches (c : CRUD) createOrder :
  range_order (Structure c) createOrder →
  one_auto_increment (Structure c) →
  live_matches (Structure c) (scanned (declared_rows createOrder) ∅).
Proof.
  intros Horder Hone col properties Hcol.
  assert (NoDup (map fst createOrder)) as Hnodup.
  { unfold range_order in Horder. change (map fst createOrder) with (createOrder.*1).
    rewrite Horder. apply NoDup_fst_map_to_list. }
  apply (range_order_lookup _ _ _ _ Horder) in Hcol as Hin.
  eexists. split; [by apply scanned_declared |].
  unfold declared_row, column_info, NullString_String. simpl.
  split; [reflexivity |]. split; [| split].
  - intros Hnn. unfold prop. simpl.
    destruct (decide (_ ∨ _)) as [_|Hno]; [discriminate | destruct Hno; by left].
  - intros Hdefault. destruct (decide (prop properties "DEFAULT" = "")); [done | reflexivity].
  - intros Hauto.
    rewrite (create_fields_primary_key createOrder col properties); [| | done..].
    + unfold prop. simpl. by destruct (decide (col = col)).
    + intros col' properties' Hin' Hauto'.
      apply (range_order_lookup _ _ _ _ Horder) in Hin'. by eapply Hone.
Qed.

(** On a store that reports the table as the first run declared it, the
    second run executes nothing, for every descriptor with at most one
    [AUTO_INCREMENT] column and for all orders of visit. *)
Corollary synchronize_after_create (c : CRUD) createOrder createOrder' alterOrder keyOrder log :
  range_order (Structure c) createOrder →
  range_order (Structure c) alterOrder →
  range_order (Structure c) keyOrder →
  one_auto_increment (Structure c) →
  Synchronize example_store c createOrder' alterOrder keyOrder
    (Some (declared_rows createOrder), log)
  = (None, (Some (declared_rows createOrder),
            log ++ [CQueryRow (tableExistsQuery c); CQuery (showColumnsQuery c);
                    CRowsClose])).
Proof.
  intros Hcreate Halter Hkey Hone.
  apply (synchronize_in_sync example_store c createOrder' alterOrder keyOrder
           (Some (declared_rows createOrder)) (Some (declared_rows createOrder))
           (Some (declared_rows createOrder)) log 1 (map inr (declared_rows createOrder))
           (scanned (declared_rows createOrder) ∅)); try done.
  - rewrite map_map. simpl. apply scan_rows_scanned.
  - by apply declared_rows_live_matches.
Qed.

(* ===================================================================== *)
(** * Further properties of the filter compiler                          *)
(* ===================================================================== *)

(** ** Keys *)

Lemma append_cons a (s t : string) : String a s +:+ t = String a (s +:+ t).
Proof. reflexivity. Qed.

Lemma substring_skip (s t : string) :
  String.substring (String.length s) (String.length t) (s +:+ t) = t.
Proof.
  induction s as [|a s IH].
  - change ("" +:+ t) with t. simpl String.length.
    induction t as [|b t IHt]; [reflexivity |]. simpl. by rewrite IHt.
  - rewrite append_cons. simpl. exact IH.
Qed.

Lemma substring_take (s t : string) :
  String.substring 0 (String.length s) (s +:+ t) = s.
Proof.
  induction s as [|a s IH].
  - change ("" +:+ t) with t. simpl. by destruct t.
  - rewrite append_cons. simpl. by rewrite IH.
Qed.

Lemma HasSuffix_app (s t : string) : strings.HasSuffix (s +:+ t) t = true.
Proof.
  unfold strings.HasSuffix. rewrite append_length.
  destruct (decide (String.length t ≤ String.length s + String.length t)); [| lia].
  replace (String.length s + String.length t - String.length t) with (String.length s) by lia.
  rewrite substring_skip. apply String.eqb_refl.
Qed.

Lemma TrimSuffix_app (s t : string) : strings.TrimSuffix (s +:+ t) t = s.
Proof.
  unfold strings.TrimSuffix. rewrite HasSuffix_app, append_length.
  replace (String.length s + String.length t - String.length t) with (String.length s) by lia.
  apply substring_take.
Qed.

Lemma HasSuffix_app_other (s t u : string) :
  String.length t = String.length u → t ≠ u → strings.HasSuffix (s +:+ t) u = false.
Proof.
  intros Hlen Hne. destruct (strings.HasSuffix (s +:+ t) u) eqn:Hsuffix; [| reflexivity].
  destruct Hne. exact (HasSuffix_same_length _ _ _ (HasSuffix_app s t) Hsuffix Hlen).
Qed.

(** The parts of a key made of a column and an operator suffix. *)
Lemma leaf_key_round_trip (col : string) (value : any) (s : string) :
  leaf_parts (col +:+ ">") value = Returns (col, ">", value)
  ∧ leaf_parts (col +:+ "<") value = Returns (col, "<", value)
  ∧ leaf_parts (col +:+ "=") value = Returns (col, "=", value)
  ∧ leaf_parts (col +:+ "%") (AString s)
    = Returns (col, "LIKE", AString ("%" +:+ s +:+ "%")).
Proof.
  unfold leaf_parts. repeat split.
  - by rewrite HasSuffix_app, TrimSuffix_app.
  - rewrite (HasSuffix_app_other col "<" ">") by done.
    by rewrite HasSuffix_app, TrimSuffix_app.
  - rewrite (HasSuffix_app_other col "=" ">"), (HasSuffix_app_other col "=" "<") by done.
    by rewrite HasSuffix_app, TrimSuffix_app.
  - rewrite (HasSuffix_app_other col "%" ">"), (HasSuffix_app_other col "%" "<"),
      (HasSuffix_app_other col "%" "=") by done.
    by rewrite HasSuffix_app, TrimSuffix_app.
Qed.

Lemma is_or_group_tag (suffix : string) : is_or_group ("[OR]" +:+ suffix) = true.
Proof. unfold is_or_group. apply orb_true_iff. right. by destruct suffix. Qed.

Lemma is_and_group_tag (suffix : string) :
  is_or_group ("[AND]" +:+ suffix) = false ∧ is_and_group ("[AND]" +:+ suffix) = true.
Proof.
  split.
  - unfold is_or_group. apply orb_false_iff. split; [| by destruct suffix].
    apply bool_decide_eq_false_2. by destruct suffix.
  - unfold is_and_group. apply orb_true_iff. right. by destruct suffix.
Qed.

Lemma range_loop_app {E St} (body : St → E → outcome St) l1 l2 st :
  range_loop body (l1 ++ l2) st = obind (range_loop body l1 st) (range_loop body l2).
Proof.
  revert st. induction l1 as [|e l1 IH]; intros st; [reflexivity |].
  simpl. destruct (body st e); [apply IH | reflexivity].
Qed.

Lemma range_loop_entry_ext {E St} (body : St → E → outcome St) l1 e e' l2 st :
  (∀ st, body st e = body st e') →
  range_loop body (l1 ++ e :: l2) st = range_loop body (l1 ++ e' :: l2) st.
Proof.
  intros Hbody. rewrite !range_loop_app.
  destruct (range_loop body l1 st); [| reflexivity]. simpl. by rewrite Hbody.
Qed.

(** X2. What follows the tag in a group key does not matter: an entry under
    [[OR]] followed by any suffix compiles as the entry under [[OR]], and
    likewise for [[AND]], wherever the entry stands in the filter. *)
Theorem group_tag_suffix_ignored (c : CRUD) (suffix : string) (value : any)
    (filter1 filter2 : list (string * any)) (logic : string) :
  PrepareWhereWithRootLogic c (filter1 ++ ("[OR]" +:+ suffix, value) :: filter2) logic
  = PrepareWhereWithRootLogic c (filter1 ++ ("[OR]", value) :: filter2) logic
  ∧ PrepareWhereWithRootLogic c (filter1 ++ ("[AND]" +:+ suffix, value) :: filter2) logic
    = PrepareWhereWithRootLogic c (filter1 ++ ("[AND]", value) :: filter2) logic.
Proof.
  unfold PrepareWhereWithRootLogic. split; f_equal; apply range_loop_entry_ext; intros st.
  - by rewrite !where_entry_or by (apply is_or_group_tag || reflexivity).
  - destruct (is_and_group_tag suffix) as [Hor Hand].
    by rewrite !where_entry_and by (done || reflexivity).
Qed.

(** ** Filters made of leaves *)

Lemma leaf_parts_Panics key value :
  leaf_parts key value = Panics →
  strings.HasSuffix key "%" = true ∧ is_string value = false.
Proof.
  unfold leaf_parts. repeat case_match; (discriminate || (intros _; by subst)).
Qed.

Lemma plain_leaf_parts entry :
  plain_leaf entry → ∃ column comparison value,
    leaf_parts (fst entry) (snd entry) = Returns (column, comparison, value).
Proof.
  intros (_ & _ & Hlike).
  destruct (leaf_parts (fst entry) (snd entry)) as [[[column comparison] value]|] eqn:Hparts;
    [by eauto |].
  apply leaf_parts_Panics in Hparts as [Hsuffix Hvalue].
  rewrite (Hlike Hsuffix) in Hvalue. discriminate.
Qed.

Lemma range_loop_leaves (c : CRUD) rec filter conditions errors :
  Forall plain_leaf filter →
  range_loop (where_entry c rec) filter (conditions, errors)
  = Returns (conditions ++ omap (leaf_condition c) filter,
             errors ++ omap (leaf_error c) filter).
Proof.
  intros Hleaves. revert conditions errors.
  induction Hleaves as [|[key value] filter Hleaf _ IH]; intros conditions errors.
  - by rewrite range_loop_nil, !app_nil_r.
  - rewrite range_loop_cons. destruct (Hleaf) as (Hor & Hand & _). simpl in Hor, Hand.
    rewrite where_entry_leaf by done.
    destruct (plain_leaf_parts _ Hleaf) as (column & comparison & value' & Hparts).
    simpl in Hparts. unfold where_leaf. rewrite Hparts, obind_Returns.
    simpl omap. unfold leaf_condition at 1, leaf_error at 1. simpl fst. simpl snd.
    rewrite Hparts.
    destruct (Structure c !! column); rewrite obind_Returns, IH; simpl;
      by rewrite <- ?app_assoc.
Qed.

Lemma leaves_compile (c : CRUD) (filter : list (string * any)) (logic : string) :
  Forall plain_leaf filter →
  PrepareWhereWithRootLogic c filter logic
  = Returns (compiled logic (omap (leaf_condition c) filter) (omap (leaf_error c) filter)).
Proof.
  intros Hleaves. unfold PrepareWhereWithRootLogic.
  rewrite (range_loop_leaves c _ _ [] [] Hleaves), obind_Returns. simpl.
  by destruct (omap (leaf_condition c) filter).
Qed.

(** X3. A filter made of leaves on which no assertion fails is compiled entry
    by entry: the conditions are those of the entries whose column is in
    the structure, the errors those of the other entries, both in the order
    of the visit; the errors are returned only when there is no condition
    at all. *)
Theorem leaves_compile_in_order (c : CRUD) (filter : list (string * any)) (logic : string) :
  Forall plain_leaf filter →
  PrepareWhereWithRootLogic c filter logic
  = Returns (compiled logic (omap (leaf_condition c) filter) (omap (leaf_error c) filter)).
Proof.
  intros Hleaves. unfold PrepareWhereWithRootLogic.
  rewrite (range_loop_leaves c _ _ [] [] Hleaves), obind_Returns. simpl.
  by destruct (omap (leaf_condition c) filter).
Qed.

Lemma leaves_compile_in_order_witness :
  PrepareWhereWithRootLogic userCRUD
    [("ghost", AString "x"); ("id>", AInt 1); ("phantom%", AString "y"); ("name", AString "Bob")]
    "OR"
  = Returns (compiled "OR"
               (omap (leaf_condition userCRUD)
                  [("ghost", AString "x"); ("id>", AInt 1); ("phantom%", AString "y");
                   ("name", AString "Bob")])
               (omap (leaf_error userCRUD)
                  [("ghost", AString "x"); ("id>", AInt 1); ("phantom%", AString "y");
                   ("name", AString "Bob")])).
Proof.
  apply leaves_compile_in_order.
  repeat (apply Forall_cons; split; [repeat split; try reflexivity; intros [=] |]).
  apply Forall_nil_2.
Defined.

(** X4. Two visits of the same map of leaves compile to the same conditions
    and the same errors, each up to their order. *)
Theorem leaves_visit_order (c : CRUD) (filter filter' : list (string * any)) (logic : string) :
  Forall plain_leaf filter → filter ≡ₚ filter' →
  ∃ conditions conditions' errors errors',
    conditions ≡ₚ conditions' ∧ errors ≡ₚ errors'
    ∧ PrepareWhereWithRootLogic c filter logic = Returns (compiled logic conditions errors)
    ∧ PrepareWhereWithRootLogic c filter' logic = Returns (compiled logic conditions' errors').
Proof.
  intros Hleaves Hperm.
  exists (omap (leaf_condition c) filter), (omap (leaf_condition c) filter'),
    (omap (leaf_error c) filter), (omap (leaf_error c) filter').
  split; [by rewrite Hperm |]. split; [by rewrite Hperm |].
  split; apply leaves_compile; [done | by rewrite <- Hperm].
Qed.

Lemma leaves_visit_order_witness :
  ∃ conditions conditions' errors errors',
    conditions ≡ₚ conditions' ∧ errors ≡ₚ errors'
    ∧ PrepareWhereWithRootLogic userCRUD [("id>", AInt 1); ("id<", AInt 2)] "OR"
      = Returns (compiled "OR" conditions errors)
    ∧ PrepareWhereWithRootLogic userCRUD [("id<", AInt 2); ("id>", AInt 1)] "OR"
      = Returns (compiled "OR" conditions' errors').
Proof.
  apply leaves_visit_order.
  - repeat (apply Forall_cons; split; [repeat split; try reflexivity; intros [=] |]).
    apply Forall_nil_2.
  - apply perm_swap.
Defined.

(** X5. A leaf on a column of the structure, anywhere at the top of a filter,
    silences every error: the call panics or returns no error. *)
Theorem valid_leaf_silences_errors (c : CRUD) (filter : list (string * any))
    (logic key : string) (value : any) :
  (key, value) ∈ filter →
  is_or_group key = false → is_and_group key = false →
  is_Some (Structure c !! leaf_column key) →
  PrepareWhereWithRootLogic c filter logic = Panics
  ∨ ∃ clause, PrepareWhereWithRootLogic c filter logic = Returns (clause, []).
Proof.
  intros Hin Hor Hand Hcol.
  destruct (PrepareWhereWithRootLogic c filter logic) as [[clause errors]|] eqn:Hrun;
    [right | by left].
  exists clause. by rewrite (errors_dropped_with_valid_leaf c _ _ _ _ _ _ Hin Hor Hand Hcol Hrun).
Qed.

Lemma valid_leaf_silences_errors_witness :
  PrepareWhereWithRootLogic userCRUD
    [("[OR]", AMap [("ghost", AInt 1)]); ("phantom", ANil); ("email=", AString "a@b")] "AND"
  = Panics
  ∨ ∃ clause,
      PrepareWhereWithRootLogic userCRUD
        [("[OR]", AMap [("ghost", AInt 1)]); ("phantom", ANil); ("email=", AString "a@b")]
        "AND"
      = Returns (clause, []).
Proof.
  apply (valid_leaf_silences_errors userCRUD _ "AND" "email=" (AString "a@b")).
  - do 2 apply list_elem_of_further. apply list_elem_of_here.
  - reflexivity.
  - reflexivity.
  - exists emailProperties. reflexivity.
Defined.

(** ** Panics *)

(** Induction on a value, with the hypothesis for every entry of a map. *)
Lemma any_ind_entries (P : any → Prop) :
  P ANil → (∀ b, P (ABool b)) → (∀ n, P (AInt n)) → (∀ s, P (AString s)) →
  (∀ entries, Forall (λ e, P (snd e)) entries → P (AMap entries)) →
  ∀ v, P v.
Proof.
  intros Hnil Hbool Hint Hstring Hmap.
  fix IH 1. intros [| b | n | s | entries]; [done.. |].
  apply Hmap. induction entries as [|[key value] entries IHentries];
    [apply Forall_nil_2 | apply Forall_cons; split; [apply IH | apply IHentries]].
Qed.

Lemma range_loop_Panics_inv {E St} (body : St → E → outcome St) entries st :
  range_loop body entries st = Panics → ∃ e st', e ∈ entries ∧ body st' e = Panics.
Proof.
  revert st. induction entries as [|e entries IH]; intros st; [discriminate |].
  rewrite range_loop_cons. destruct (body st e) as [st1|] eqn:Hbody.
  - intros (e' & st' & Hin & Hpanics)%IH. exists e', st'.
    split; [by apply list_elem_of_further | done].
  - intros _. exists e, st. split; [apply list_elem_of_here | done].
Qed.

Lemma where_group_Panics_inv st sub : where_group st sub = Panics → sub = Panics.
Proof.
  destruct st as [conditions errors]. unfold where_group.
  by destruct sub as [[clause subErrors]|].
Qed.

Lemma where_assert_map_Panics_inv (c : CRUD) value logic :
  where_assert_map c value logic = Panics →
  is_map value = false
  ∨ ∃ filter key' value',
      value = AMap filter ∧ reached filter (key', value') ∧ assertion_fails key' value'.
Proof.
  revert logic. induction value as [| | | | filter IH] using any_ind_entries; intros logic;
    [by left.. |].
  rewrite where_assert_map_eq. unfold PrepareWhereWithRootLogic.
  destruct (range_loop _ filter _) as [st|] eqn:Hloop; [discriminate |]. intros _.
  right. exists filter.
  enough (∃ key' value', reached filter (key', value') ∧ assertion_fails key' value')
    as (k & v & Hr & Hf) by (by exists k, v).
  apply range_loop_Panics_inv in Hloop as ([key value] & st' & Hin & Hentry).
  rewrite Forall_forall in IH. specialize (IH _ Hin). simpl in IH.
  assert (∀ logic', where_assert_map c value logic' = Panics →
            (is_or_group key = true ∨ is_and_group key = true) →
            ∃ key' value', reached filter (key', value') ∧ assertion_fails key' value')
    as Hgroup.
  { intros logic' Hsub Htag. destruct (IH _ Hsub) as [Hnomap | (sub & k & v & -> & Hr & Hf)].
    - exists key, value. split; [by apply reached_here | by right].
    - exists k, v. split; [by eapply reached_group | done]. }
  unfold where_entry in Hentry.
  destruct (is_or_group key) eqn:Hor.
  { apply where_group_Panics_inv in Hentry. apply (Hgroup _ Hentry). by left. }
  destruct (is_and_group key) eqn:Hand.
  { apply where_group_Panics_inv in Hentry. apply (Hgroup _ Hentry). by right. }
  destruct st' as [conditions errors]. unfold where_leaf in Hentry.
  destruct (leaf_parts key value) as [[[column comparison] value']|] eqn:Hparts.
  { rewrite obind_Returns in Hentry. by destruct (Structure c !! column). }
  apply leaf_parts_Panics in Hparts as [Hsuffix Hvalue].
  exists key, value. split; [by apply reached_here | by left].
Qed.

(** X6. The compiler panics exactly when it reaches an entry whose type
    assertion fails; on every other filter it returns.  Neither the
    structure nor the logic matters. *)
Theorem panics_iff_assertion_fails (c : CRUD) (filter : list (string * any)) (logic : string) :
  PrepareWhereWithRootLogic c filter logic = Panics
  ↔ ∃ key value, reached filter (key, value) ∧ assertion_fails key value.
Proof.
  split.
  - intros Hpanics. rewrite <- where_assert_map_eq in Hpanics.
    apply where_assert_map_Panics_inv in Hpanics
      as [[=] | (filter' & key & value & [= <-] & Hreached & Hfails)].
    by exists key, value.
  - intros (key & value & Hreached & Hfails).
    by apply (reached_assertion_panics c filter key value).
Qed.

(** ** Groups and logic *)

Lemma where_entry_at_most_one (c : CRUD) rec conditions errors entry conditions' errors' :
  where_entry c rec (conditions, errors) entry = Returns (conditions', errors') →
  conditions' = conditions ∨ ∃ cond, conditions' = conditions ++ [cond].
Proof.
  destruct entry as [key value]. unfold where_entry.
  assert (∀ sub, where_group (conditions, errors) sub = Returns (conditions', errors') →
            conditions' = conditions ∨ ∃ cond, conditions' = conditions ++ [cond]) as Hgroup.
  { intros [[clause subErrors]|]; [| discriminate]. unfold where_group.
    rewrite obind_Returns. intros [= <- _].
    destruct (decide (clause ≠ "")); [right; by eexists | by left]. }
  destruct (is_or_group key); [apply Hgroup |].
  destruct (is_and_group key); [apply Hgroup |].
  unfold where_leaf.
  destruct (leaf_parts key value) as [[[column comparison] value']|]; [| discriminate].
  rewrite obind_Returns.
  destruct (Structure c !! column); intros [= <- _]; [right; by eexists | by left].
Qed.

(** X7. With a single entry the logic is never written: the call gives the same
    result under every logic. *)
Theorem single_entry_ignores_logic (c : CRUD) (entry : string * any) (logic logic' : string) :
  PrepareWhereWithRootLogic c [entry] logic = PrepareWhereWithRootLogic c [entry] logic'.
Proof.
  unfold PrepareWhereWithRootLogic. rewrite range_loop_cons.
  destruct (where_entry c (where_assert_map c) ([], []) entry)
    as [[conditions errors]|] eqn:Hentry; [| reflexivity].
  rewrite obind_Returns, range_loop_nil, !obind_Returns.
  by apply where_entry_at_most_one in Hentry as [-> | [cond ->]].
Qed.

(** X8. A group whose map compiles to the empty predicate with no error leaves
    no trace: the filter compiles as it does without the group.  The empty
    map is such a group. *)
Theorem empty_group_vanishes (c : CRUD) (key : string) (group : list (string * any))
    (filter1 filter2 : list (string * any)) (logic : string) :
  is_or_group key = true ∨ is_and_group key = true →
  (∀ logic', PrepareWhereWithRootLogic c group logic' = Returns ("", [])) →
  PrepareWhereWithRootLogic c (filter1 ++ (key, AMap group) :: filter2) logic
  = PrepareWhereWithRootLogic c (filter1 ++ filter2) logic.
Proof.
  intros Htag Hgroup. unfold PrepareWhereWithRootLogic. f_equal.
  rewrite !range_loop_app.
  destruct (range_loop _ filter1 _) as [[conditions errors]|]; [| reflexivity].
  rewrite !obind_Returns, range_loop_cons.
  replace (where_entry c (where_assert_map c) (conditions, errors) (key, AMap group))
    with (Returns (conditions, errors) : outcome where_state); [reflexivity |].
  unfold where_entry.
  destruct (is_or_group key); [by rewrite where_assert_map_eq, Hgroup |].
  destruct Htag as [[=] | ->]. by rewrite where_assert_map_eq, Hgroup.
Qed.

Lemma empty_group_vanishes_witness :
  PrepareWhereWithRootLogic userCRUD
    ([("name", AString "Bob")] ++ ("[OR]1", AMap []) :: [("id<", AInt 9)]) "AND"
  = PrepareWhereWithRootLogic userCRUD ([("name", AString "Bob")] ++ [("id<", AInt 9)]) "AND".
Proof.
  apply (empty_group_vanishes userCRUD "[OR]1" []).
  - left. reflexivity.
  - reflexivity.
Defined.

(* ===================================================================== *)
(** * Further properties of the record writer                            *)
(* ===================================================================== *)

Lemma logsOrder_range : range_order (Structure logsCRUD) logsOrder.
Proof. unfold range_order. symmetry. apply map_to_list_to_map. compute_done. Qed.

Lemma logs_nothing_required data col : ¬ missing_required logsCRUD data col.
Proof.
  intros (properties & Hcol & Hnn & Hdefault & Hauto & _).
  apply (range_order_lookup _ _ _ _ logsOrder_range) in Hcol.
  repeat (apply elem_of_cons in Hcol as [[= -> ->] | Hcol]);
    [by destruct Hauto | discriminate | discriminate | by apply elem_of_nil in Hcol].
Qed.

Lemma range_order_NoDup {V} (m : gmap string V) order :
  range_order m order → NoDup (map fst order).
Proof.
  unfold range_order. intros Horder. change (map fst order) with (order.*1).
  rewrite Horder. apply NoDup_fst_map_to_list.
Qed.

Lemma range_order_length {V} (m : gmap string V) order :
  range_order m order → length order = size m.
Proof. unfold range_order. intros ->. apply length_map_to_list. Qed.

(** X10. When no required column is missing, [Create] executes one [INSERT]
    statement and returns what the store answers.  The statement lists
    every column of the descriptor once, in the order of the visit, with as
    many placeholders as the descriptor has columns; the argument for a
    column is the input's value, or [nil] when the input has no entry for
    it. *)
Theorem create_inserts_every_column {S} (driver : Driver S) (c : CRUD)
    (data : gmap string any) order1 order2 (s : S) (log : list call) :
  range_order (Structure c) order1 →
  range_order (Structure c) order2 →
  (∀ col, ¬ missing_required c data col) →
  let columns := map fst order2 in
  let values := map (λ col, default ANil (data !! col)) columns in
  let answer := drv_Exec driver (insertQuery c order2) values s in
  Create driver c data order1 order2 (s, log)
  = (DriverError <$> answer.1, (answer.2, log ++ [CExec (insertQuery c order2) values]))
  ∧ NoDup columns
  ∧ ∀ col, col ∈ columns ↔ is_Some (Structure c !! col).
Proof.
  intros Horder1 Horder2 Hnone columns values answer.
  pose proof (check_required_spec c data order1 Horder1) as Hspec.
  split; [| split; [by eapply range_order_NoDup | intros col; by apply range_order_keys]].
  unfold Create. destruct (check_required order1 data) as [err|].
  { destruct Hspec as (col & _ & Hmissing). by apply Hnone in Hmissing. }
  rewrite Exec_run. unfold answer, values, columns, insertQuery.
  rewrite <- (range_order_length _ _ Horder2), map_map.
  replace (map (λ _ : string * gmap string string, "?") order2)
    with (replicate (length order2) "?"); [reflexivity |].
  clear. induction order2 as [|e order2 IH]; [reflexivity | simpl; by rewrite IH].
Qed.

(** The first [Create] of [main]: the generated [id] is sent as [nil]. *)
Lemma create_inserts_every_column_witness :
  Create example_store userCRUD
    {[ "name" := AString "Alice Smith"; "email" := AString "alice.smith@example.com" ]}
    userOrder userOrder (Some users_rows, [])
  = (None, (Some users_rows,
            [] ++ [CExec "INSERT INTO users (id, name, email) VALUES (?, ?, ?)"
                     [ANil; AString "Alice Smith"; AString "alice.smith@example.com"]]))
  ∧ NoDup (map fst userOrder)
  ∧ ∀ col, col ∈ map fst userOrder ↔ is_Some (Structure userCRUD !! col).
Proof.
  refine (create_inserts_every_column example_store userCRUD
            {[ "name" := AString "Alice Smith"; "email" := AString "alice.smith@example.com" ]}
            userOrder userOrder (Some users_rows) [] userOrder_range userOrder_range _).
  intros col (properties & Hcol & _ & _ & Hauto & Hdata).
  apply (range_order_lookup _ _ _ _ userOrder_range) in Hcol.
  repeat (apply elem_of_cons in Hcol as [[= -> ->] | Hcol]);
    [by destruct Hauto | discriminate | discriminate | by apply elem_of_nil in Hcol].
Defined.

Lemma check_required_ext order (data data' : gmap string any) :
  (∀ col properties, (col, properties) ∈ order → data !! col = data' !! col) →
  check_required order data = check_required order data'.
Proof.
  induction order as [|[col properties] rest IH]; intros Hsame; [reflexivity |].
  simpl. rewrite <- (Hsame col properties) by apply list_elem_of_here.
  rewrite IH by (intros col' ??; eapply Hsame; by apply list_elem_of_further).
  reflexivity.
Qed.

(** X11. [Create] reads the input at the columns of the descriptor only: two
    inputs that agree there give the same run, so an entry under any other
    key is ignored without an error. *)
Theorem create_ignores_other_keys {S} (driver : Driver S) (c : CRUD)
    (data data' : gmap string any) order1 order2 (st : S * list call) :
  range_order (Structure c) order1 →
  range_order (Structure c) order2 →
  (∀ col, is_Some (Structure c !! col) → data !! col = data' !! col) →
  Create driver c data order1 order2 st = Create driver c data' order1 order2 st.
Proof.
  intros Horder1 Horder2 Hsame. unfold Create.
  rewrite (check_required_ext order1 data data').
  - destruct (check_required order1 data'); [reflexivity |]. f_equal.
    apply map_ext_in. intros [col properties] Hin%list_elem_of_In. simpl.
    rewrite Hsame; [reflexivity |].
    apply (range_order_lookup _ _ _ _ Horder2) in Hin. by eexists.
  - intros col properties Hin. apply Hsame.
    apply (range_order_lookup _ _ _ _ Horder1) in Hin. by eexists.
Qed.

Lemma create_ignores_other_keys_witness :
  Create example_store userCRUD
    {[ "name" := AString "Bob"; "email" := AString "bob@example.com" ]}
    userOrder userOrder (Some users_rows, [])
  = Create example_store userCRUD
      {[ "name" := AString "Bob"; "email" := AString "bob@example.com";
         "nickname" := AString "bobby" ]}
      userOrder userOrder (Some users_rows, []).
Proof.
  apply (create_ignores_other_keys example_store userCRUD _ _ userOrder userOrder
           (Some users_rows, []) userOrder_range userOrder_range).
  intros col [properties Hcol].
  apply (range_order_lookup _ _ _ _ userOrder_range) in Hcol.
  repeat (apply elem_of_cons in Hcol as [[= -> ->] | Hcol]);
    [reflexivity.. | by apply elem_of_nil in Hcol].
Defined.

(** X12. An update with no field, on a descriptor none of whose columns has to
    be supplied, is not refused: [Update] executes a statement with an
    empty [SET] clause. *)
Theorem update_empty_set_clause {S} (driver : Driver S) (c : CRUD) (id : string)
    order1 (s : S) (log : list call) :
  range_order (Structure c) order1 →
  (∀ col, ¬ missing_required c ∅ col) →
  let query := "UPDATE " +:+ Table c +:+ " SET  WHERE id = ?" in
  let answer := drv_Exec driver query [AString id] s in
  Update driver c id ∅ order1 [] (s, log)
  = (DriverError <$> answer.1, (answer.2, log ++ [CExec query [AString id]])).
Proof.
  intros Horder Hnone query answer.
  pose proof (check_required_spec c ∅ order1 Horder) as Hspec.
  unfold Update. destruct (check_required order1 ∅) as [err|].
  { destruct Hspec as (col & _ & Hmissing). by apply Hnone in Hmissing. }
  apply Exec_run.
Qed.

Lemma update_empty_set_clause_witness :
  Update example_store logsCRUD "7" ∅ logsOrder [] (None, [])
  = (None, (None, [] ++ [CExec "UPDATE logs SET  WHERE id = ?" [AString "7"]])).
Proof.
  apply (update_empty_set_clause example_store logsCRUD "7" logsOrder None []
           logsOrder_range).
  intros col. apply logs_nothing_required.
Defined.

(* ===================================================================== *)
(** * Further properties of the schema synchronizer                      *)
(* ===================================================================== *)

(** ** Creating the table *)

Lemma create_fields_definitions order : fst (create_fields order) = map fieldDef order.
Proof.
  unfold create_fields.
  enough (∀ fieldDefinitions primaryKeyColumn,
    fst (fold_left
      (λ '(fieldDefinitions, primaryKeyColumn) '(col, properties),
        let fieldDef := with_options (col +:+ " " +:+ prop properties "TYPE") properties in
        let primaryKeyColumn :=
          if decide (prop properties "AUTO_INCREMENT" = "true") then col
          else primaryKeyColumn in
        (fieldDefinitions ++ [fieldDef], primaryKeyColumn))
      order (fieldDefinitions, primaryKeyColumn))
    = fieldDefinitions ++ map fieldDef order) as Hfold by apply Hfold.
  induction order as [|[col properties] rest IH]; intros fieldDefinitions primaryKeyColumn.
  - simpl. by rewrite app_nil_r.
  - simpl. rewrite IH. by rewrite <- app_assoc.
Qed.

(** X14. When the table does not exist and the descriptor has its one
    [AUTO_INCREMENT] column, [Synchronize] makes two calls: the existence
    query and one [CREATE TABLE] statement with a definition per column, in
    the order of the visit, and that column as primary key.  It returns
    [nil], or the store's failure wrapped with the statement. *)
Theorem synchronize_creates_table {S} (driver : Driver S) (c : CRUD)
    createOrder alterOrder keyOrder (s s1 : S) (log : list call)
    (col : string) (properties : gmap string string) :
  range_order (Structure c) createOrder →
  one_auto_increment (Structure c) →
  Structure c !! col = Some properties →
  prop properties "AUTO_INCREMENT" = "true" →
  drv_QueryRow driver (tableExistsQuery c) s = (inr 0%Z, s1) →
  let statement :=
    ("CREATE TABLE " +:+ Table c +:+ " ("
     +:+ strings.Join (map fieldDef createOrder) ", ")
    +:+ ", PRIMARY KEY (" +:+ col +:+ "))" in
  let answer := drv_Exec driver statement [] s1 in
  Synchronize driver c createOrder alterOrder keyOrder (s, log)
  = ((λ msg, Errorf ("failed to create table: " +:+ msg +:+ "; query: " +:+ statement))
       <$> answer.1,
     (answer.2, log ++ [CQueryRow (tableExistsQuery c); CExec statement []])).
Proof.
  intros Horder Hone Hcol Hauto Hexists statement answer.
  assert (createTableQuery c createOrder = statement) as Hstatement.
  { unfold createTableQuery, statement.
    pose proof (create_fields_definitions createOrder) as Hdefs.
    pose proof (create_fields_primary_key createOrder col properties) as Hkey.
    destruct (create_fields createOrder) as [fieldDefinitions primaryKeyColumn].
    simpl in Hdefs, Hkey. rewrite Hdefs, Hkey; [by rewrite !append_assoc | | | done].
    - intros col' properties' Hin' Hauto'.
      apply (range_order_lookup _ _ _ _ Horder) in Hin'.
      by apply (Hone col' col properties' properties).
    - by apply (range_order_lookup _ _ _ _ Horder). }
  unfold Synchronize. rewrite bind_run, QueryRow_run, Hexists. simpl.
  rewrite exec_ddl_run, Hstatement. simpl. by rewrite <- app_assoc.
Qed.

(** The first call of [Synchronize] in [main], on a store without the table. *)
Lemma synchronize_creates_table_witness :
  Synchronize example_store userCRUD userOrder userOrder userOrder (None, [])
  = (None,
     (None,
      [] ++ [CQueryRow (tableExistsQuery userCRUD);
             CExec
               "CREATE TABLE users (id int NOT NULL AUTO_INCREMENT, name varchar(255) NOT NULL, email varchar(255) NOT NULL, PRIMARY KEY (id))"
               []])).
Proof.
  refine (eq_trans
            (synchronize_creates_table example_store userCRUD userOrder userOrder userOrder
               None None [] "id" idProperties userOrder_range _ _ _ _) _).
  - intros col1 col2 properties1 properties2 Hcol1 Hcol2 Hauto1 Hauto2.
    apply (range_order_lookup _ _ _ _ userOrder_range) in Hcol1, Hcol2.
    repeat (apply elem_of_cons in Hcol1 as [[= -> ->] | Hcol1]);
      [| discriminate | discriminate | by apply elem_of_nil in Hcol1].
    repeat (apply elem_of_cons in Hcol2 as [[= -> ->] | Hcol2]);
      [reflexivity | discriminate | discriminate | by apply elem_of_nil in Hcol2].
  - reflexivity.
  - reflexivity.
  - reflexivity.
  - vm_compute. reflexivity.
Defined.

(** ** Failures of the introspection *)

Lemma executed_app log1 log2 : executed (log1 ++ log2) = executed log1 ++ executed log2.
Proof. apply omap_app. Qed.

Lemma scan_rows_fails (c : CRUD) rows msg currentColumns :
  inl msg ∈ rows →
  ∃ err, scan_rows c (map (sum_map DriverError id) rows) currentColumns = inl (Errorf err).
Proof.
  revert currentColumns. induction rows as [|[msg'|r] rows IH]; intros currentColumns Hin.
  - by apply elem_of_nil in Hin.
  - by eexists.
  - apply elem_of_cons in Hin as [[=] | Hin]. simpl. by apply IH.
Qed.

(** X15. When the introspection fails, [Synchronize] returns an error and
    executes no statement, whatever the descriptor asks for. *)
Theorem synchronize_introspection_failure {S} (driver : Driver S) (c : CRUD)
    createOrder alterOrder keyOrder (s : S) (log : list call) :
  introspection_fails driver c s →
  (∃ msg, (Synchronize driver c createOrder alterOrder keyOrder (s, log)).1
          = Some (Errorf msg))
  ∧ executed (Synchronize driver c createOrder alterOrder keyOrder (s, log)).2.2
    = executed log.
Proof.
  unfold Synchronize. rewrite bind_run, QueryRow_run.
  intros [(msg & s1 & Hexists) | (exists_ & s1 & Hexists & Hne & Hquery)];
    rewrite Hexists; simpl.
  { split; [by eexists | by rewrite executed_app, app_nil_r]. }
  destruct (decide (exists_ = 0%Z)) as [|_]; [done |].
  rewrite bind_run, Query_run.
  destruct Hquery as [(msg & s2 & Hquery) | (rows & s2 & msg & Hquery & Hin)];
    rewrite Hquery; simpl.
  { split; [by eexists | by rewrite !executed_app, !app_nil_r]. }
  destruct (scan_rows_fails c rows msg ∅ Hin) as [err ->].
  rewrite !bind_run. simpl.
  split; [by eexists | by rewrite !executed_app, !app_nil_r].
Qed.

Lemma synchronize_introspection_failure_witness :
  (∃ msg, (Synchronize unreadable_store userCRUD userOrder userOrder userOrder
             (Some old_users_rows, [])).1 = Some (Errorf msg))
  ∧ executed (Synchronize unreadable_store userCRUD userOrder userOrder userOrder
                (Some old_users_rows, [])).2.2
    = executed [].
Proof.
  apply synchronize_introspection_failure.
  right. exists 1%Z, (Some old_users_rows). split; [reflexivity |]. split; [discriminate |].
  right. eexists _, _, _. split; [reflexivity | apply list_elem_of_here].
Defined.

(** ** Reconciling an existing table *)

Section Reconcile.

Context {S : Type} (driver : Driver S).
Variable c : CRUD.
Variable currentColumns : gmap string (gmap string string).

Lemma exec_ddl_accepted what query (st : S * list call) :
  accepts_all driver →
  (exec_ddl driver what query st).1 = None
  ∧ executed (exec_ddl driver what query st).2.2 = executed st.2 ++ [query].
Proof.
  intros Haccepts. destruct st as [s log]. rewrite exec_ddl_run. simpl.
  rewrite Haccepts. split; [reflexivity | by rewrite executed_app].
Qed.

Lemma alter_column_accepted entry (st : S * list call) :
  accepts_all driver →
  (alter_column driver c currentColumns entry st).1 = None
  ∧ executed (alter_column driver c currentColumns entry st).2.2
    = executed st.2 ++ option_list (alter_statement c currentColumns entry).
Proof.
  intros Haccepts. destruct entry as [col properties].
  unfold alter_column, alter_statement. simpl.
  destruct (currentColumns !! col) as [currentColInfo|];
    [destruct (differs currentColInfo properties) |];
    (by apply exec_ddl_accepted) || (simpl; by rewrite app_nil_r).
Qed.

Lemma for_each_accepted order (st : S * list call) :
  accepts_all driver →
  (for_each (alter_column driver c currentColumns) order st).1 = None
  ∧ executed (for_each (alter_column driver c currentColumns) order st).2.2
    = executed st.2 ++ omap (alter_statement c currentColumns) order.
Proof.
  intros Haccepts. revert st. induction order as [|entry order IH]; intros st.
  - simpl. by rewrite app_nil_r.
  - simpl for_each. rewrite bind_run.
    destruct (alter_column_accepted entry st Haccepts) as [Hnone Hlog].
    rewrite Hnone. destruct (IH (alter_column driver c currentColumns entry st).2)
      as [Hnone' Hlog'].
    split; [exact Hnone' |]. rewrite Hlog', Hlog, <- app_assoc. f_equal.
    simpl. by destruct (alter_statement c currentColumns entry).
Qed.

Lemma ensure_primary_key_accepted order (st : S * list call) :
  accepts_all driver →
  (ensure_primary_key driver c currentColumns order st).1 = None
  ∧ executed (ensure_primary_key driver c currentColumns order st).2.2
    = executed st.2 ++ option_list (key_statement c currentColumns order).
Proof.
  intros Haccepts. induction order as [|[col properties] order IH].
  - simpl. by rewrite app_nil_r.
  - simpl. destruct (decide (prop properties "AUTO_INCREMENT" = "true")); [| exact IH].
    destruct (currentColumns !! col) as [currentColInfo|];
      [destruct (decide (prop currentColInfo "KEY" ≠ "PRI")) |];
      (by apply exec_ddl_accepted) || (simpl; by rewrite app_nil_r).
Qed.

End Reconcile.

(** X16. On a store that accepts every statement, a run that finds the table
    there executes, in the order of the visit, one statement for each
    column of the descriptor that is not live ([ADD COLUMN]) or differs
    from its live column ([MODIFY]), then at most one [ADD PRIMARY KEY], and
    returns no error.  A live column outside the descriptor gets none. *)
Theorem synchronize_reconciles {S} (driver : Driver S) (c : CRUD)
    createOrder alterOrder keyOrder (s s1 s2 : S) (log : list call)
    (exists_ : Z) rows currentColumns :
  accepts_all driver →
  drv_QueryRow driver (tableExistsQuery c) s = (inr exists_, s1) →
  exists_ ≠ 0%Z →
  drv_Query driver (showColumnsQuery c) s1 = (inr rows, s2) →
  scan_rows c (map (sum_map DriverError id) rows) ∅ = inr currentColumns →
  (Synchronize driver c createOrder alterOrder keyOrder (s, log)).1 = None
  ∧ executed (Synchronize driver c createOrder alterOrder keyOrder (s, log)).2.2
    = executed log ++ omap (alter_statement c currentColumns) alterOrder
      ++ option_list (key_statement c currentColumns keyOrder).
Proof.
  intros Haccepts Hexists Hne Hquery Hscan.
  unfold Synchronize. rewrite bind_run, QueryRow_run, Hexists. simpl.
  destruct (decide (exists_ = 0%Z)) as [|_]; [done |].
  rewrite bind_run, Query_run, Hquery. simpl. rewrite Hscan. rewrite !bind_run.
  set (st0 := (s2, (log ++ [CQueryRow (tableExistsQuery c)]) ++ [CQuery (showColumnsQuery c)])).
  destruct (for_each_accepted driver c currentColumns alterOrder st0 Haccepts)
    as [Hnone Hlog].
  rewrite Hnone.
  destruct (ensure_primary_key_accepted driver c currentColumns keyOrder
              (for_each (alter_column driver c currentColumns) alterOrder st0).2 Haccepts)
    as [Hnone' Hlog'].
  set (st1 := ensure_primary_key driver c currentColumns keyOrder
                (for_each (alter_column driver c currentColumns) alterOrder st0).2) in *.
  destruct st1 as [result [s3 log3]] eqn:Hst1. simpl in Hnone', Hlog'. simpl.
  split; [exact Hnone' |].
  rewrite executed_app, Hlog', Hlog. unfold st0. simpl.
  rewrite !executed_app. simpl. by rewrite !app_nil_r, <- !app_assoc.
Qed.

(** The table of [old_users_rows] brought up to [userStructure]. *)
Lemma synchronize_reconciles_witness :
  (Synchronize example_store userCRUD userOrder userOrder userOrder
     (Some old_users_rows, [])).1 = None
  ∧ executed (Synchronize example_store userCRUD userOrder userOrder userOrder
                (Some old_users_rows, [])).2.2
    = executed []
      ++ [ "ALTER TABLE users MODIFY name varchar(255) NOT NULL";
           "ALTER TABLE users ADD COLUMN email varchar(255) NOT NULL" ]
      ++ [ "ALTER TABLE users ADD PRIMARY KEY (id)" ].
Proof.
  assert (accepts_all example_store) as Haccepts by (intros ???; reflexivity).
  assert (scan_rows userCRUD (map (sum_map DriverError id) (map inr old_users_rows)) ∅
          = inr (scanned old_users_rows ∅)) as Hscan by (vm_compute; reflexivity).
  destruct (synchronize_reconciles example_store userCRUD userOrder userOrder userOrder
              (Some old_users_rows) (Some old_users_rows) (Some old_users_rows) [] 1
              (map inr old_users_rows) (scanned old_users_rows ∅)
              Haccepts eq_refl ltac:(discriminate) eq_refl Hscan) as [Hresult Hlog].
  split; [exact Hresult |]. rewrite Hlog. vm_compute. reflexivity.
Defined.

(** ** What a run may execute *)

Section ExecutesOnly.

Context {S : Type} (driver : Driver S).
Variable P : string → Prop.

Lemma executes_only_ret {A} (a : A) : executes_only P (mret a : DB S A).
Proof. intros st query Hin. by left. Qed.

Lemma executes_only_bind {A B} (m : DB S A) (f : A → DB S B) :
  executes_only P m → (∀ a, executes_only P (f a)) → executes_only P (m ≫= f).
Proof.
  intros Hm Hf st query. rewrite bind_run. intros Hin.
  apply Hf in Hin as [Hin | HP]; [by apply Hm in Hin | by right].
Qed.

Lemma executes_only_QueryRow query : executes_only P (QueryRow driver query).
Proof.
  intros [s log] q. rewrite QueryRow_run. simpl.
  rewrite executed_app, app_nil_r. by left.
Qed.

Lemma executes_only_Query query : executes_only P (Query driver query).
Proof.
  intros [s log] q. rewrite Query_run. simpl.
  rewrite executed_app, app_nil_r. by left.
Qed.

Lemma executes_only_RowsClose : executes_only P (RowsClose : DB S unit).
Proof. intros [s log] q. simpl. rewrite executed_app, app_nil_r. by left. Qed.

Lemma executes_only_exec_ddl what query : P query → executes_only P (exec_ddl driver what query).
Proof.
  intros HP [s log] q. rewrite exec_ddl_run. simpl. rewrite executed_app.
  intros [Hin | Hin%list_elem_of_singleton]%elem_of_app; [by left | right; by subst].
Qed.

Lemma executes_only_for_each {E} (body : E → DB S (option error)) entries :
  (∀ e, e ∈ entries → executes_only P (body e)) →
  executes_only P (for_each body entries).
Proof.
  induction entries as [|e entries IH]; intros Hbody; [apply executes_only_ret |].
  simpl. apply executes_only_bind; [apply Hbody, list_elem_of_here |].
  intros [err|]; [apply executes_only_ret |].
  apply IH. intros e' He'. by apply Hbody, list_elem_of_further.
Qed.

End ExecutesOnly.

(** X17. Whatever the store answers, every statement a run of [Synchronize]
    executes is the [CREATE TABLE] statement or one of the three statements
    [column_statements] builds from the table name and one entry of the
    descriptor, its column name and its properties: the [MODIFY], the
    [ADD COLUMN] or the [ADD PRIMARY KEY] of that column.  The text of a
    statement comes from the descriptor alone, with [TYPE] and [DEFAULT]
    written into it as they are; nothing the store reports is written into
    a statement. *)
Theorem synchronize_only_descriptor_statements {S} (driver : Driver S) (c : CRUD)
    createOrder alterOrder keyOrder (st : S * list call) (query : string) :
  range_order (Structure c) alterOrder →
  range_order (Structure c) keyOrder →
  query ∈ executed (Synchronize driver c createOrder alterOrder keyOrder st).2.2 →
  query ∈ executed st.2 ∨ descriptor_statement c createOrder query.
Proof.
  intros Halter Hkey.
  enough (executes_only (descriptor_statement c createOrder)
            (Synchronize driver c createOrder alterOrder keyOrder)) as Honly
    by apply Honly.
  assert (∀ col properties what i order,
            range_order (Structure c) order → (col, properties) ∈ order →
            column_statements c (col, properties) !! i = Some what →
            descriptor_statement c createOrder what) as Hcolumn.
  { intros col properties what i order Horder Hin Hi. right. exists col, properties.
    split; [by apply (range_order_lookup _ _ _ _ Horder) |].
    by apply list_elem_of_lookup_2 in Hi. }
  unfold Synchronize. apply executes_only_bind; [apply executes_only_QueryRow |].
  intros [err|exists_]; [apply executes_only_ret |].
  destruct (decide (exists_ = 0%Z)); [apply executes_only_exec_ddl; by left |].
  apply executes_only_bind; [apply executes_only_Query |].
  intros [err|rows]; [apply executes_only_ret |].
  apply executes_only_bind;
    [| intros result; apply executes_only_bind;
       [apply executes_only_RowsClose | intros _; apply executes_only_ret]].
  destruct (scan_rows c rows ∅) as [err|currentColumns]; [apply executes_only_ret |].
  apply executes_only_bind.
  - apply executes_only_for_each. intros [col properties] Hin. unfold alter_column.
    destruct (currentColumns !! col) as [currentColInfo|];
      [destruct (differs currentColInfo properties); [| apply executes_only_ret] |];
      apply executes_only_exec_ddl.
    + by apply (Hcolumn col properties _ 0 alterOrder).
    + by apply (Hcolumn col properties _ 1 alterOrder).
  - intros [err|]; [apply executes_only_ret |].
    assert (∀ order, (∀ e, e ∈ order → e ∈ keyOrder) →
              executes_only (descriptor_statement c createOrder)
                (ensure_primary_key driver c currentColumns order)) as Hensure.
    { induction order as [|[col properties] order IH]; intros Hsub;
        [apply executes_only_ret |].
      simpl. destruct (decide (prop properties "AUTO_INCREMENT" = "true")).
      - destruct (currentColumns !! col) as [currentColInfo|]; [| apply executes_only_ret].
        destruct (decide (prop currentColInfo "KEY" ≠ "PRI")); [| apply executes_only_ret].
        apply executes_only_exec_ddl.
        apply (Hcolumn col properties _ 2 keyOrder); [done | | done].
        apply Hsub, list_elem_of_here.
      - apply IH. intros e He. by apply Hsub, list_elem_of_further. }
    by apply Hensure.
Qed.

Lemma synchronize_only_descriptor_statements_witness :
  "ALTER TABLE users ADD COLUMN email varchar(255) NOT NULL" ∈ executed ([] : list call)
  ∨ descriptor_statement userCRUD userOrder
      "ALTER TABLE users ADD COLUMN email varchar(255) NOT NULL".
Proof.
  apply (synchronize_only_descriptor_statements example_store userCRUD
           userOrder userOrder userOrder (Some old_users_rows, [])
           "ALTER TABLE users ADD COLUMN email varchar(255) NOT NULL"
           userOrder_range userOrder_range).
  replace (executed (Synchronize example_store userCRUD userOrder userOrder userOrder
                       (Some old_users_rows, [])).2.2)
    with [ "ALTER TABLE users MODIFY name varchar(255) NOT NULL";
           "ALTER TABLE users ADD COLUMN email varchar(255) NOT NULL";
           "ALTER TABLE users ADD PRIMARY KEY (id)" ]
    by (vm_compute; reflexivity).
  apply list_elem_of_further, list_elem_of_here.
Defined.

(** ** Stopping at the first failure *)

Section Rejected.

Context {S : Type} (driver : Driver S).
Variable c : CRUD.
Variable currentColumns : gmap string (gmap string string).
Hypothesis Hrejects : rejects_all driver.

Lemma exec_ddl_rejected what query st :
  nothing_or_one_failure (exec_ddl driver what query) st.
Proof using Hrejects.
  right. destruct st as [s log]. rewrite exec_ddl_run. simpl.
  destruct (Hrejects query [] s) as [msg ->]. split; [by eexists |].
  exists query. by rewrite executed_app.
Qed.

Lemma alter_column_rejected entry st :
  nothing_or_one_failure (alter_column driver c currentColumns entry) st.
Proof using Hrejects.
  destruct entry as [col properties]. unfold alter_column.
  destruct (currentColumns !! col) as [currentColInfo|];
    [destruct (differs currentColInfo properties); [| by left] |];
    apply exec_ddl_rejected.
Qed.

Lemma for_each_rejected order st :
  nothing_or_one_failure (for_each (alter_column driver c currentColumns) order) st.
Proof using Hrejects.
  revert st. induction order as [|entry order IH]; intros st; [by left |].
  unfold nothing_or_one_failure. simpl for_each. rewrite bind_run.
  destruct (alter_column_rejected entry st) as [[Hnone Hlog] | [[err Herr] Hlog]].
  - rewrite Hnone. destruct (IH (alter_column driver c currentColumns entry st).2)
      as [[Hnone' Hlog'] | [Hsome' [query Hlog']]].
    + left. split; [done | by rewrite Hlog'].
    + right. split; [done |]. exists query. by rewrite Hlog', Hlog.
  - rewrite Herr. right. split; [by eexists | exact Hlog].
Qed.

Lemma ensure_primary_key_rejected order st :
  nothing_or_one_failure (ensure_primary_key driver c currentColumns order) st.
Proof using Hrejects.
  induction order as [|[col properties] order IH]; [by left |].
  unfold nothing_or_one_failure. simpl.
  destruct (decide (prop properties "AUTO_INCREMENT" = "true")); [| exact IH].
  destruct (currentColumns !! col) as [currentColInfo|]; [| by left].
  destruct (decide (prop currentColInfo "KEY" ≠ "PRI")); [| by left].
  apply exec_ddl_rejected.
Qed.

End Rejected.

(** X18. On a store that rejects every statement, a run of [Synchronize]
    executes at most one statement: it returns at the first failure and
    tries nothing after it. *)
Theorem synchronize_stops_at_first_failure {S} (driver : Driver S) (c : CRUD)
    createOrder alterOrder keyOrder (st : S * list call) :
  rejects_all driver →
  ∃ statements,
    executed (Synchronize driver c createOrder alterOrder keyOrder st).2.2
    = executed st.2 ++ statements
    ∧ length statements ≤ 1
    ∧ (statements = []
       ∨ is_Some (Synchronize driver c createOrder alterOrder keyOrder st).1).
Proof.
  intros Hrejects.
  enough (nothing_or_one_failure (Synchronize driver c createOrder alterOrder keyOrder) st
          ∨ (executed (Synchronize driver c createOrder alterOrder keyOrder st).2.2
             = executed st.2)) as [[[_ Hlog] | [Hsome [query Hlog]]] | Hlog].
  { exists []. rewrite app_nil_r. split; [done | split; [simpl; lia | by left]]. }
  { exists [query]. split; [done | split; [simpl; lia | by right]]. }
  { exists []. rewrite app_nil_r. split; [done | split; [simpl; lia | by left]]. }
  destruct st as [s log]. unfold nothing_or_one_failure, Synchronize.
  rewrite bind_run, QueryRow_run.
  destruct (drv_QueryRow driver (tableExistsQuery c) s) as [[msg|exists_] s1]; simpl.
  { right. by rewrite executed_app, app_nil_r. }
  destruct (decide (exists_ = 0%Z)).
  { left. destruct (exec_ddl_rejected driver Hrejects "failed to create table"
                      (createTableQuery c createOrder)
                      (s1, log ++ [CQueryRow (tableExistsQuery c)]))
      as [[Hnone Hlog] | [Hsome [query Hlog]]]; simpl in Hlog;
      rewrite executed_app, app_nil_r in Hlog; [by left | right; by eauto]. }
  rewrite bind_run, Query_run.
  destruct (drv_Query driver (showColumnsQuery c) s1) as [[msg|rows] s2]; simpl.
  { right. by rewrite !executed_app, !app_nil_r. }
  set (st0 := (s2, (log ++ [CQueryRow (tableExistsQuery c)]) ++ [CQuery (showColumnsQuery c)])).
  assert (executed st0.2 = executed log) as Hst0
    by (unfold st0; simpl; by rewrite !executed_app, !app_nil_r).
  rewrite !bind_run.
  destruct (scan_rows c (map (sum_map DriverError id) rows) ∅) as [err|currentColumns].
  { right. simpl. rewrite executed_app, app_nil_r. exact Hst0. }
  rewrite bind_run.
  destruct (for_each_rejected driver c currentColumns Hrejects alterOrder st0)
    as [[Hnone Hlog] | [[err Herr] [query Hlog]]].
  - rewrite Hnone.
    destruct (ensure_primary_key_rejected driver c currentColumns Hrejects keyOrder
                (for_each (alter_column driver c currentColumns) alterOrder st0).2)
      as [[Hnone' Hlog'] | [Hsome' [query Hlog']]].
    + right. destruct (ensure_primary_key _ _ _ _ _) as [result [s3 log3]]. simpl in *.
      by rewrite executed_app, app_nil_r, Hlog', Hlog.
    + left. right. destruct (ensure_primary_key _ _ _ _ _) as [result [s3 log3]]. simpl in *.
      split; [done |]. exists query. by rewrite executed_app, app_nil_r, Hlog', Hlog, Hst0.
  - rewrite Herr. left. right.
    destruct (for_each _ _ _) as [result [s3 log3]]. simpl in *.
    split; [by eexists |]. exists query. by rewrite executed_app, app_nil_r, Hlog, Hst0.
Qed.

(** The lagging table on the rejecting store: only the first statement is
    tried. *)
Lemma synchronize_stops_at_first_failure_witness :
  ∃ statements,
    executed (Synchronize rejecting_store userCRUD userOrder userOrder userOrder
                (Some old_users_rows, [])).2.2
    = executed [] ++ statements
    ∧ length statements ≤ 1
    ∧ (statements = []
       ∨ is_Some (Synchronize rejecting_store userCRUD userOrder userOrder userOrder
                    (Some old_users_rows, [])).1).
Proof.
  apply (synchronize_stops_at_first_failure rejecting_store userCRUD
           userOrder userOrder userOrder (Some old_users_rows, [])).
  intros query args s. by eexists.
Defined.

Example rejected_after_one_statement :
  Synchronize rejecting_store userCRUD userOrder userOrder userOrder (Some old_users_rows, [])
  = (Some (Errorf
             "failed to alter table structure: denied; query: ALTER TABLE users MODIFY name varchar(255) NOT NULL"),
     (Some old_users_rows,
      [CQueryRow (tableExistsQuery userCRUD); CQuery (showColumnsQuery userCRUD);
       CExec "ALTER TABLE users MODIFY name varchar(255) NOT NULL" []; CRowsClose])).
Proof. vm_compute. reflexivity. Qed.

(* ===================================================================== *)
(** * Validation and nested errors, whatever the order of the visit      *)
(* ===================================================================== *)

(** X13. When exactly one required column is missing, [Create] and [Update]
    both name it, in every order of the visit, and leave the store and the
    log as they were. *)
Theorem validation_names_the_missing_column {S} (driver : Driver S) (c : CRUD) (id : string)
    (data : gmap string any) order1 order2 dataOrder (st : S * list call) (col : string) :
  range_order (Structure c) order1 →
  missing_required c data col →
  (∀ col', missing_required c data col' → col' = col) →
  Create driver c data order1 order2 st = (Some (ValidationError col), st)
  ∧ Update driver c id data order1 dataOrder st = (Some (ValidationError col), st).
Proof.
  intros Horder Hmissing Hunique.
  pose proof (check_required_spec c data order1 Horder) as Hspec.
  unfold Create, Update. destruct (check_required order1 data) as [err|].
  - destruct Hspec as (col' & -> & Hmissing'). by rewrite (Hunique col' Hmissing').
  - by apply Hspec in Hmissing.
Qed.

Lemma validation_names_the_missing_column_witness :
  Create example_store userCRUD {[ "email" := AString "no_name@example.com" ]}
    (map_to_list userStructure) userOrder (Some users_rows, [])
  = (Some (ValidationError "name"), (Some users_rows, []))
  ∧ Update example_store userCRUD "2" {[ "email" := AString "no_name@example.com" ]}
      (map_to_list userStructure) [("email", AString "no_name@example.com")]
      (Some users_rows, [])
    = (Some (ValidationError "name"), (Some users_rows, [])).
Proof.
  apply (validation_names_the_missing_column example_store userCRUD "2"
           {[ "email" := AString "no_name@example.com" ]}
           (map_to_list userStructure) userOrder
           [("email", AString "no_name@example.com")] (Some users_rows, []) "name").
  - unfold range_order. reflexivity.
  - exists nameProperties. repeat split; (reflexivity || discriminate).
  - intros col' (properties & Hcol & _ & _ & Hauto & Hdata).
    apply (range_order_lookup _ _ _ _ userOrder_range) in Hcol.
    repeat (apply elem_of_cons in Hcol as [[= -> ->] | Hcol]);
      [by destruct Hauto | reflexivity | discriminate | by apply elem_of_nil in Hcol].
Defined.

(** X9. A filter that is one group of leaves, none of them on a column of the
    structure, returns the empty predicate and the errors of the group, one
    per entry in the order of the visit: the errors of a nested map reach
    the caller when nothing at all compiles. *)
Theorem group_errors_surface (c : CRUD) (key : string) (group : list (string * any))
    (logic : string) :
  is_or_group key = true ∨ is_and_group key = true →
  Forall plain_leaf group →
  omap (leaf_condition c) group = [] →
  PrepareWhereWithRootLogic c [(key, AMap group)] logic
  = Returns ("", omap (leaf_error c) group).
Proof.
  intros Htag Hleaves Hnone. unfold PrepareWhereWithRootLogic at 1.
  rewrite range_loop_cons.
  assert (∀ logic', where_assert_map c (AMap group) logic'
                    = Returns ("", omap (leaf_error c) group)) as Hgroup.
  { intros logic'. rewrite where_assert_map_eq, (leaves_compile c group logic' Hleaves).
    by rewrite Hnone. }
  unfold where_entry.
  destruct (is_or_group key); [| destruct Htag as [[=] | ->]];
    rewrite Hgroup; unfold where_group; rewrite !obind_Returns;
    (destruct (decide ("" ≠ "")) as [Hne|_]; [by destruct Hne |]);
    destruct (omap (leaf_error c) group) as [|err errors]; reflexivity.
Qed.

Lemma group_errors_surface_witness :
  PrepareWhereWithRootLogic userCRUD
    [("[OR]", AMap [("ghost>", AInt 1); ("phantom", AString "x")])] "AND"
  = Returns ("", omap (leaf_error userCRUD) [("ghost>", AInt 1); ("phantom", AString "x")]).
Proof.
  apply group_errors_surface.
  - left. reflexivity.
  - repeat (apply Forall_cons; split; [repeat split; try reflexivity; intros [=] |]).
    apply Forall_nil_2.
  - reflexivity.
Defined.

(* ===================================================================== *)
(** * Two runs of the synchronizer                                       *)
(* ===================================================================== *)





(** The two runs on the [users] table, call by call. *)
Example users_synchronized_twice :
  Synchronize (declaring_store userCRUD userOrder) userCRUD userOrder userOrder userOrder
    (None, [])
  = (None,
     (Some (declared_rows userOrder),
      [CQueryRow (tableExistsQuery userCRUD);
       CExec
         "CREATE TABLE users (id int NOT NULL AUTO_INCREMENT, name varchar(255) NOT NULL, email varchar(255) NOT NULL, PRIMARY KEY (id))"
         []]))
  ∧ Synchronize (declaring_store userCRUD userOrder) userCRUD userOrder userOrder userOrder
      (Some (declared_rows userOrder), [])
    = (None,
       (Some (declared_rows userOrder),
        [CQueryRow (tableExistsQuery userCRUD); CQuery (showColumnsQuery userCRUD);
         CRowsClose])).
Proof. split; vm_compute; reflexivity. Qed.


(* ===================================================================== *)
(** * Operator suffixes                                                  *)
(* ===================================================================== *)

Lemma prefix_app_suffix (p col suffix : string) :
  String.length suffix = 1 →
  (∀ q, p ≠ q +:+ suffix) →
  String.prefix p (col +:+ suffix) = String.prefix p col.
Proof.
  intros Hlen Hne. revert p Hne. induction col as [|a col IH]; intros p Hne.
  - change ("" +:+ suffix) with suffix.
    destruct suffix as [|b [|??]]; try discriminate.
    destruct p as [|a' p]; [reflexivity |]. simpl.
    destruct (Ascii.ascii_dec a' b) as [->|]; [| reflexivity].
    destruct p; [| reflexivity]. by destruct (Hne "").
  - rewrite append_cons. destruct p as [|a' p]; [reflexivity |]. simpl.
    destruct (Ascii.ascii_dec a' a) as [->|]; [| reflexivity].
    apply IH. intros q ->. by apply (Hne (String a q)).
Qed.

Lemma is_or_group_prefix key : is_or_group key = String.prefix "[OR]" key.
Proof.
  unfold is_or_group, strings.HasPrefix. case_bool_decide as Hkey; [by subst | reflexivity].
Qed.

Lemma is_and_group_prefix key : is_and_group key = String.prefix "[AND]" key.
Proof.
  unfold is_and_group, strings.HasPrefix. case_bool_decide as Hkey; [by subst | reflexivity].
Qed.

Lemma tag_not_operator_suffixed (suffix q : string) :
  operator_suffix suffix → "[OR]" ≠ q +:+ suffix ∧ "[AND]" ≠ q +:+ suffix.
Proof.
  intros Hop. unfold operator_suffix in Hop.
  repeat (apply elem_of_cons in Hop as [-> | Hop]); [| | | | by apply elem_of_nil in Hop];
    (split; intros Heq;
     destruct q as [|a1 [|a2 [|a3 [|a4 [|a5 [|a6 q]]]]]]; cbv [String.append] in Heq;
     discriminate Heq).
Qed.

(** A key made of a column and an operator suffix is a group key exactly
    when the column starts with the tag. *)
Lemma group_key_suffix (col suffix : string) :
  operator_suffix suffix →
  is_or_group (col +:+ suffix) = is_or_group col
  ∧ is_and_group (col +:+ suffix) = is_and_group col.
Proof.
  intros Hop. rewrite !is_or_group_prefix, !is_and_group_prefix.
  assert (String.length suffix = 1) as Hlen.
  { unfold operator_suffix in Hop.
    repeat (apply elem_of_cons in Hop as [-> | Hop]); try reflexivity.
    by apply elem_of_nil in Hop. }
  split; apply prefix_app_suffix; try done; intros q;
    by destruct (tag_not_operator_suffixed suffix q Hop).
Qed.

Lemma single_leaf_result (c : CRUD) key value column comparison value' :
  is_or_group key = false → is_and_group key = false →
  leaf_parts key value = Returns (column, comparison, value') →
  PrepareWhere c [(key, value)] = Returns (leaf_result c column comparison value').
Proof.
  intros Hor Hand Hparts. unfold PrepareWhere, PrepareWhereWithRootLogic.
  rewrite range_loop_cons, where_entry_leaf by done.
  unfold where_leaf, leaf_result. rewrite Hparts, obind_Returns.
  by destruct (Structure c !! column).
Qed.

(** X1. For every column string that does not start with a group tag
    ([[OR]] or [[AND]]), [PrepareWhere] reads the key made of the column
    followed by an operator suffix back as that column with that operator:
    the filter with this one entry returns the condition on the column
    when the column is in the structure, and the error naming the column
    otherwise.  [>], [<] and [=] keep the value; [%] is [LIKE] with the
    string between two [%].  The column is whatever stands before the last
    byte, so [id>=] is the column [id>] with [=]. *)
Theorem operator_suffix_round_trip (c : CRUD) (col : string) (value : any) (s : string) :
  is_or_group col = false → is_and_group col = false →
  PrepareWhere c [(col +:+ ">", value)] = Returns (leaf_result c col ">" value)
  ∧ PrepareWhere c [(col +:+ "<", value)] = Returns (leaf_result c col "<" value)
  ∧ PrepareWhere c [(col +:+ "=", value)] = Returns (leaf_result c col "=" value)
  ∧ PrepareWhere c [(col +:+ "%", AString s)]
    = Returns (leaf_result c col "LIKE" (AString ("%" +:+ s +:+ "%"))).
Proof.
  intros Hor Hand.
  destruct (leaf_key_round_trip col value s) as (Hgt & Hlt & Heq & Hlike).
  assert (∀ suffix, operator_suffix suffix →
            is_or_group (col +:+ suffix) = false ∧ is_and_group (col +:+ suffix) = false)
    as Hleaf.
  { intros suffix Hop. destruct (group_key_suffix col suffix Hop) as [-> ->]. done. }
  assert (operator_suffix ">" ∧ operator_suffix "<" ∧ operator_suffix "="
          ∧ operator_suffix "%") as (Hop1 & Hop2 & Hop3 & Hop4)
    by (unfold operator_suffix; repeat split; compute_done).
  repeat split; apply single_leaf_result; try done; by apply Hleaf.
Qed.

(** The column [id] of the users, and the column [id>] that [id>=] names. *)
Lemma operator_suffix_round_trip_witness :
  (PrepareWhere userCRUD [("id" +:+ ">", AInt 1)] = Returns (leaf_result userCRUD "id" ">" (AInt 1))
   ∧ PrepareWhere userCRUD [("id" +:+ "<", AInt 1)]
     = Returns (leaf_result userCRUD "id" "<" (AInt 1))
   ∧ PrepareWhere userCRUD [("id" +:+ "=", AInt 1)]
     = Returns (leaf_result userCRUD "id" "=" (AInt 1))
   ∧ PrepareWhere userCRUD [("id" +:+ "%", AString "7")]
     = Returns (leaf_result userCRUD "id" "LIKE" (AString ("%" +:+ "7" +:+ "%"))))
  ∧ PrepareWhere userCRUD [("id>" +:+ "=", AInt 1)]
    = Returns ("", [Errorf "field 'id>' does not exist in the structure"]).
Proof.
  split.
  - apply (operator_suffix_round_trip userCRUD "id" (AInt 1) "7"); reflexivity.
  - apply (operator_suffix_round_trip userCRUD "id>" (AInt 1) "7"); reflexivity.
Defined.
